(** * TermProj [run.py]: windowed environment wrapper, batched rollout, metrics

    A shallow embedding of the evaluation core of [run.py]:
    - [SequenceEnvironmentWrapper] (lines 39-150): five bounded deques driven
      by [reset], [step], [pad_current_episode] and read by [_get_obs];
    - [_batch_rollout] (lines 321-367): the lock-step rollout of a pool of
      wrappers with done latching and reward masking;
    - [print_metrics] (lines 388-392): mean, population standard deviation,
      median and 25%-trimmed mean;
    - [StateActionReturnDataset] (lines 238-266): the windows of the offline
      dataset that [__getitem__] cuts and the tensors it builds from them.

    Modelling conventions.
    - Python objects mutated in place are threaded explicitly: a method of a
      wrapper is a function [wrapper → wrapper * result A]; an exception
      leaves the mutations made before it in place, as in Python.
    - The raw gym environment, the JPEG round trip and the policy are
      external; they are interfaces (type classes) with arbitrary behaviour.
    - A reward is a Python number that the wrapper stores and hands on
      without looking at it; the rollout is the first to compute with it, in
      IEEE arithmetic: the masking of line 355 multiplies doubles, the
      accumulation of line 356 rounds to float32.  Floats are the
      [spec_float] of the standard library, with its operations.
    - The metrics are computed over exact rationals, the standard deviation
      over the reals; what is proved of them concerns a sample on which the
      float arithmetic of numpy is exact, and counts that do not depend on
      the values. *)

From Stdlib Require Import ZArith QArith Qround Qreals Reals Lra Lia Sorted.
From Stdlib Require Import Floats.SpecFloat.
From Stdlib Require Lqa.
From stdpp Require Import base list.

(** ** Exceptions and the state-and-exception monad *)

Inductive exn : Type :=
  | IndexError
  | ValueError
  | AssertionError
  | EnvironmentFault (code : nat).

Inductive result (A : Type) : Type :=
  | Ok (a : A)
  | Raise (e : exn).
Arguments Ok {A} a.
Arguments Raise {A} e.

Definition M (S A : Type) : Type := S → S * result A.

Definition ret {S A} (a : A) : M S A := λ s, (s, Ok a).
Definition raise {S A} (e : exn) : M S A := λ s, (s, Raise e).
Definition bind {S A B} (m : M S A) (k : A → M S B) : M S B :=
  λ s, match m s with
       | (s', Ok a) => k a s'
       | (s', Raise e) => (s', Raise e)
       end.
Definition get {S} : M S S := λ s, (s, Ok s).
Definition modify {S} (f : S → S) : M S unit := λ s, (f s, Ok tt).
Definition lift_result {S A} (r : result A) : M S A := λ s, (s, r).

Declare Scope py_scope.
Delimit Scope py_scope with py.
Notation "x ⇐ m ;; k" := (bind m (λ x, k))
  (at level 100, m at next level, k at level 200, right associativity) : py_scope.
Notation "m ;;; k" := (bind m (λ _, k))
  (at level 100, k at level 200, right associativity) : py_scope.
Open Scope py_scope.

(** ** numpy arrays *)

(** A frame: its shape and its entries in row-major order. *)
Record ndarray : Type := mk_ndarray { shape : list nat; data : list Z }.

(** [np.zeros_like(a)]: the shape of [a], every entry 0. *)
Definition zeros_like (a : ndarray) : ndarray :=
  {| shape := shape a; data := replicate (foldr Nat.mul 1 (shape a)) 0%Z |}.

(** [np.stack(xs, axis=0)] over items whose shape is read by [shp]: raises
    [ValueError] on an empty sequence and when two items differ in shape;
    the stacked array is kept as the list of its slices along axis 0. *)
Definition np_stack {A} (shp : A → list nat) (xs : list A) : result (list A) :=
  match xs with
  | [] => Raise ValueError
  | x :: rest =>
      if forallb (λ y, bool_decide (shp y = shp x)) rest then Ok xs
      else Raise ValueError
  end.

Definition scalar_shape (_ : Z) : list nat := [].

(** ** [collections.deque] with [maxlen] *)

(** [d.append(x)] on a deque of bound [maxlen]: the oldest entries fall off
    the left end; with [maxlen = 0] nothing is ever stored. *)
Definition deque_append {A} (maxlen : nat) (d : list A) (x : A) : list A :=
  let d' := d ++ [x] in drop (length d' - maxlen) d'.

(** [d[-1] = x]: [IndexError] on an empty deque. *)
Definition set_last {A} (d : list A) (x : A) : result (list A) :=
  match d with
  | [] => Raise IndexError
  | _ => Ok (<[length d - 1 := x]> d)
  end.

(** [xs[i]] for a Python integer index: negative indices count from the
    right end; out of range is [None] (an [IndexError]). *)
Definition py_index {A} (xs : list A) (i : Z) : option A :=
  if (0 <=? i)%Z then xs !! Z.to_nat i
  else if (- Z.of_nat (length xs) <=? i)%Z
       then xs !! Z.to_nat (Z.of_nat (length xs) + i)
       else None.

(** The last [maxlen] entries of a list: what a bounded deque retains. *)
Definition keep_last {A} (maxlen : nat) (l : list A) : list A :=
  drop (length l - maxlen) l.

(** Appending a run of entries, one [append] each. *)
Definition deque_extend {A} (maxlen : nat) (d : list A) (xs : list A) : list A :=
  foldl (deque_append maxlen) d xs.

(** ** External collaborators *)

(** The raw gym environment behind a wrapper: an arbitrary state machine.
    [reset] and [step] may raise; they return the environment's next state
    either way.  [max_episode_steps] is [env.spec.max_episode_steps]. *)
Class RawEnvironment : Type := {
  env_state : Type;
  env_info : Type;
  env_reset : env_state → option Z → env_state * result ndarray;
  env_step : env_state → Z → env_state * result (ndarray * Z * bool * env_info);
  max_episode_steps : env_state → Z;
}.

(** [_process_jpeg]: the tensorflow encode/decode round trip (lines 106-110). *)
Class JpegCodec : Type := { _process_jpeg : ndarray → ndarray }.

(** ** SequenceEnvironmentWrapper *)

Section Wrapper.
Context `{RawEnvironment} `{JpegCodec}.

Record wrapper : Type := mk_wrapper {
  env : env_state;
  num_stack_frames : nat;
  jpeg_obs : bool;
  obs_stack : list ndarray;
  act_stack : list Z;
  rew_stack : list Z;
  done_stack : list Z;
  info_stack : list (option env_info);
}.

(** The dict built by [_get_obs]: its three keys (lines 145-149). *)
Record history : Type := mk_history {
  observations : list ndarray;
  actions : list Z;
  rewards : list Z;
}.

Definition set_env (e : env_state) (w : wrapper) : wrapper :=
  mk_wrapper e (num_stack_frames w) (jpeg_obs w) (obs_stack w) (act_stack w)
             (rew_stack w) (done_stack w) (info_stack w).
Definition set_obs_stack (d : list ndarray) (w : wrapper) : wrapper :=
  mk_wrapper (env w) (num_stack_frames w) (jpeg_obs w) d (act_stack w)
             (rew_stack w) (done_stack w) (info_stack w).
Definition set_act_stack (d : list Z) (w : wrapper) : wrapper :=
  mk_wrapper (env w) (num_stack_frames w) (jpeg_obs w) (obs_stack w) d
             (rew_stack w) (done_stack w) (info_stack w).
Definition set_rew_stack (d : list Z) (w : wrapper) : wrapper :=
  mk_wrapper (env w) (num_stack_frames w) (jpeg_obs w) (obs_stack w)
             (act_stack w) d (done_stack w) (info_stack w).
Definition set_done_stack (d : list Z) (w : wrapper) : wrapper :=
  mk_wrapper (env w) (num_stack_frames w) (jpeg_obs w) (obs_stack w)
             (act_stack w) (rew_stack w) d (info_stack w).
Definition set_info_stack (d : list (option env_info)) (w : wrapper) : wrapper :=
  mk_wrapper (env w) (num_stack_frames w) (jpeg_obs w) (obs_stack w)
             (act_stack w) (rew_stack w) (done_stack w) d.

(** [__init__] (lines 40-49).  [num_stack_frames] is a natural number: a
    negative bound is refused by the deque constructor. *)
Definition __init__ (e : env_state) (num_stack_frames : nat) (jpeg_obs : bool)
  : wrapper :=
  mk_wrapper e num_stack_frames jpeg_obs [] [] [] [] [].

Definition obs_append (x : ndarray) : M wrapper unit :=
  modify (λ w, set_obs_stack (deque_append (num_stack_frames w) (obs_stack w) x) w).
Definition act_append (x : Z) : M wrapper unit :=
  modify (λ w, set_act_stack (deque_append (num_stack_frames w) (act_stack w) x) w).
Definition rew_append (x : Z) : M wrapper unit :=
  modify (λ w, set_rew_stack (deque_append (num_stack_frames w) (rew_stack w) x) w).
Definition done_append (x : Z) : M wrapper unit :=
  modify (λ w, set_done_stack (deque_append (num_stack_frames w) (done_stack w) x) w).
Definition info_append (x : option env_info) : M wrapper unit :=
  modify (λ w, set_info_stack (deque_append (num_stack_frames w) (info_stack w) x) w).

(** [self.act_stack[-1] = action] and [self.rew_stack[-1] = rew]. *)
Definition act_set_last (x : Z) : M wrapper unit :=
  λ w, match set_last (act_stack w) x with
       | Ok d => (set_act_stack d w, Ok tt)
       | Raise e => (w, Raise e)
       end.
Definition rew_set_last (x : Z) : M wrapper unit :=
  λ w, match set_last (rew_stack w) x with
       | Ok d => (set_rew_stack d w, Ok tt)
       | Raise e => (w, Raise e)
       end.

(** The calls into the raw environment. *)
Definition raw_reset (kwargs : option Z) : M wrapper ndarray :=
  λ w, let '(e, r) := env_reset (env w) kwargs in (set_env e w, r).
Definition raw_step (action : Z) : M wrapper (ndarray * Z * bool * env_info) :=
  λ w, let '(e, r) := env_step (env w) action in (set_env e w, r).

(** [pad_current_episode] (lines 97-104); [range(n)] is empty for [n ≤ 0]. *)
Fixpoint pad_current_episode (obs : ndarray) (n : nat) : M wrapper unit :=
  match n with
  | O => ret tt
  | S n' =>
      obs_append (zeros_like obs) ;;;
      act_append 0%Z ;;;
      rew_append 0%Z ;;;
      done_append 1%Z ;;;
      info_append None ;;;
      pad_current_episode obs n'
  end.

(** [_get_obs] (lines 112-150). *)
Definition _get_obs : M wrapper history :=
  w ⇐ get ;;
  o ⇐ lift_result (np_stack shape (obs_stack w)) ;;
  a ⇐ lift_result (np_stack scalar_shape (act_stack w)) ;;
  r ⇐ lift_result (np_stack scalar_shape (rew_stack w)) ;;
  ret (mk_history o a r).

Definition transform (obs : ndarray) : M wrapper ndarray :=
  w ⇐ get ;; ret (if jpeg_obs w then _process_jpeg obs else obs).

(** [reset] (lines 66-79); [kwargs] carries the optional seed. *)
Definition reset (kwargs : option Z) : M wrapper history :=
  obs ⇐ raw_reset kwargs ;;
  obs ⇐ transform obs ;;
  w ⇐ get ;;
  pad_current_episode obs (num_stack_frames w - 1) ;;;
  obs_append obs ;;;
  act_append 0%Z ;;;
  rew_append 0%Z ;;;
  done_append 0%Z ;;;
  info_append None ;;;
  _get_obs.

(** [step] (lines 81-95). *)
Definition step (action : Z) : M wrapper (history * Z * bool * env_info) :=
  act_set_last action ;;;
  r ⇐ raw_step action ;;
  let '(obs, rew, done, info) := r in
  obs ⇐ transform obs ;;
  rew_set_last rew ;;;
  obs_append obs ;;;
  act_append 0%Z ;;;
  rew_append 0%Z ;;;
  info_append (Some info) ;;;
  h ⇐ _get_obs ;;
  ret (h, rew, done, info).

(** The state [reset] builds before it reads the window back. *)
Definition reset_window (e : env_state) (x0 : ndarray) (w : wrapper) : wrapper :=
  let n := num_stack_frames w in
  mk_wrapper e n (jpeg_obs w)
    (deque_extend n (obs_stack w) (replicate (n - 1) (zeros_like x0) ++ [x0]))
    (deque_extend n (act_stack w) (replicate (n - 1) 0%Z ++ [0%Z]))
    (deque_extend n (rew_stack w) (replicate (n - 1) 0%Z ++ [0%Z]))
    (deque_extend n (done_stack w) (replicate (n - 1) 1%Z ++ [0%Z]))
    (deque_extend n (info_stack w) (replicate (n - 1) None ++ [None])).

(** The state [step] builds before it reads the window back, given the
    deques left by the two overwrites of the last entry. *)
Definition step_window (e : env_state) (x : ndarray) (info : env_info)
    (acts rews : list Z) (w : wrapper) : wrapper :=
  let n := num_stack_frames w in
  mk_wrapper e n (jpeg_obs w)
    (deque_append n (obs_stack w) x)
    (deque_append n acts 0%Z)
    (deque_append n rews 0%Z)
    (done_stack w)
    (deque_append n (info_stack w) (Some info)).

(** The operations a client can apply to a wrapper, and the state they
    leave behind (whether they return or raise). *)
Inductive wrapper_op : Type :=
  | OpReset (kwargs : option Z)
  | OpStep (action : Z)
  | OpPad (obs : ndarray) (n : nat)
  | OpGetObs.

Definition run_op (w : wrapper) (op : wrapper_op) : wrapper :=
  match op with
  | OpReset kwargs => (reset kwargs w).1
  | OpStep action => (step action w).1
  | OpPad obs n => (pad_current_episode obs n w).1
  | OpGetObs => (_get_obs w).1
  end.

Definition run_ops (w : wrapper) (ops : list wrapper_op) : wrapper :=
  foldl run_op w ops.

(** All five deques hold exactly [num_stack_frames] entries. *)
Definition window_full (w : wrapper) : Prop :=
  length (obs_stack w) = num_stack_frames w ∧
  length (act_stack w) = num_stack_frames w ∧
  length (rew_stack w) = num_stack_frames w ∧
  length (done_stack w) = num_stack_frames w ∧
  length (info_stack w) = num_stack_frames w.

(** The deques of a wrapper that can hold nothing. *)
Definition empty_window (w : wrapper) : Prop :=
  num_stack_frames w = 0 ∧ obs_stack w = [] ∧ act_stack w = [] ∧
  rew_stack w = [] ∧ done_stack w = [] ∧ info_stack w = [].

End Wrapper.

(** ** The batched rollout *)

(** The policy and its [torch.Generator]: [manual_seed] is the generator
    state after [rng.manual_seed(seed)]; [policy_fn] returns the batch of
    actions and the advanced generator. *)
Record batch : Type := mk_batch {
  b_observations : list (list ndarray);
  b_actions : list (list Z);
  b_rewards : list (list Z);
}.

Class Policy : Type := {
  rng_state : Type;
  manual_seed : Z → rng_state;
  policy_fn : batch → rng_state → list Z * rng_state;
}.

(** numpy broadcasting of a binary operation over two 1-d arrays: equal
    lengths combine pointwise, a length-1 array is stretched, anything else
    raises [ValueError]. *)
Definition broadcast2 {A B C} (f : A → B → C) (xs : list A) (ys : list B)
  : result (list C) :=
  if bool_decide (length xs = length ys) then Ok (zip_with f xs ys)
  else match xs, ys with
       | [x], _ => Ok (f x <$> ys)
       | _, [y] => Ok ((λ x, f x y) <$> xs)
       | _, _ => Raise ValueError
       end.

(** *** IEEE 754 numbers

    A float is a [spec_float]: a signed zero, a signed infinity, nan, or a
    sign, a mantissa and an exponent.  A double has 53 bits of precision and
    exponents below 1024, a float32 has 24 bits and exponents below 128;
    every operation rounds to nearest, ties to even. *)

(** The product and the sum of two doubles. *)
Definition float64_mul : spec_float → spec_float → spec_float := SFmul 53 1024.
Definition float64_add : spec_float → spec_float → spec_float := SFadd 53 1024.

(** An integer of an [int32] array as a double, and an integer stored into
    a [float32] array or tensor. *)
Definition float64_of_int (z : Z) : spec_float := binary_normalize 53 1024 z 0 false.
Definition float32_of_int (z : Z) : spec_float := binary_normalize 24 128 z 0 false.

(** The quotient of two float32 numbers, in single precision. *)
Definition float32_div : spec_float → spec_float → spec_float := SFdiv 24 128.

(** A double stored into a [float32] array: rounded to 24 bits. *)
Definition astype_float32 (x : spec_float) : spec_float :=
  match x with
  | S754_finite s m e => binary_round 24 128 s m e
  | _ => x
  end.

(** A float32 read as a double: the same number in the wider format. *)
Definition float64_of_float32 (x : spec_float) : spec_float :=
  match x with
  | S754_finite s m e => binary_round 53 1024 s m e
  | _ => x
  end.

(** The members of a [float32] array. *)
Definition is_float32 (x : spec_float) : bool := valid_binary 24 128 x.

(** Neither an infinity nor nan. *)
Definition is_finite (x : spec_float) : bool :=
  match x with
  | S754_zero _ | S754_finite _ _ _ => true
  | S754_infinity _ | S754_nan => false
  end.

(** Equal as numbers: the same float, or two zeros of whatever sign. *)
Definition same_number (x y : spec_float) : Prop :=
  x = y ∨ ∃ sx sy, x = S754_zero sx ∧ y = S754_zero sy.

(** The value of a reward.  The raw environment makes the reward of a step,
    a Python number; the wrapper stores it and returns it as it got it, so
    there it is a token in [Z] (and the placeholder of lines 76 and 94 the
    token 0).  [np.stack] on line 352 is the first to read its value, as a
    double: [np_float64] is that reading.  It may be any double, the
    infinities and nan included. *)
Class RewardReading : Type := { np_float64 : Z → spec_float }.

(** One entry of [acc += xs] for a [float32] array [acc] and an array [xs]
    of doubles: the entry of [acc] is widened to a double, the sum is taken
    in double precision and rounded back to float32. *)
Definition float32_iadd (a x : spec_float) : spec_float :=
  astype_float32 (float64_add (float64_of_float32 a) x).

(** [acc += xs] in place: [xs] must broadcast to the shape of [acc]. *)
Definition inplace_add (acc xs : list spec_float) : result (list spec_float) :=
  if bool_decide (length xs = length acc) then Ok (zip_with float32_iadd acc xs)
  else match xs with
       | [x] => Ok ((λ a, float32_iadd a x) <$> acc)
       | _ => Raise ValueError
       end.

(** [np.logical_or(done, done_prev).astype(np.int32)] on one entry. *)
Definition logical_or (d : bool) (d_prev : Z) : Z :=
  if d || negb (d_prev =? 0)%Z then 1%Z else 0%Z.

(** [np.all(done)]. *)
Definition np_all (done : list Z) : bool := forallb (λ d, negb (d =? 0)%Z) done.

Definition frames_shape (fs : list ndarray) : list nat :=
  length fs :: match fs with [] => [] | f :: _ => shape f end.
Definition vector_shape (v : list Z) : list nat := [length v].

Fixpoint for_each {S A B} (f : A → M S B) (xs : list A) : M S (list B) :=
  match xs with
  | [] => ret []
  | x :: rest => y ⇐ f x ;; ys ⇐ for_each f rest ;; ret (y :: ys)
  end.

Section Rollout.
Context `{RawEnvironment} `{JpegCodec} `{Policy} `{RewardReading}.

(** A call made on an environment of the pool. *)
Inductive env_call : Type :=
  | CallReset (slot : nat) (seed : Z)
  | CallStep (slot : nat) (action : Z).

(** The pool [envs] (distinct wrapper objects, by position) and the log of
    the calls made on them so far. *)
Record world : Type := mk_world { envs : list wrapper; trace : list env_call }.

Definition log (c : env_call) : M world unit :=
  modify (λ w, mk_world (envs w) (trace w ++ [c])).

(** Run a method on the wrapper in slot [i]. *)
Definition on_slot {A} (i : nat) (m : M wrapper A) : M world A :=
  λ w, match envs w !! i with
       | None => (w, Raise IndexError)
       | Some e => let '(e', r) := m e in (mk_world (<[i := e']> (envs w)) (trace w), r)
       end.

(** [{k: np.stack([obs[k] for obs in obs_list], axis=0) for k in obs_list[0]}]. *)
Definition stack_batch {S} (obs_list : list history) : M S batch :=
  match obs_list with
  | [] => raise IndexError
  | _ =>
      o ⇐ lift_result (np_stack frames_shape (observations <$> obs_list)) ;;
      a ⇐ lift_result (np_stack vector_shape (actions <$> obs_list)) ;;
      r ⇐ lift_result (np_stack vector_shape (rewards <$> obs_list)) ;;
      ret (mk_batch o a r)
  end.

(** The variables of one round that the tick loop updates. *)
Record round_vars : Type := mk_round_vars {
  obs : batch;
  rew_sum : list spec_float;
  done : list Z;
  rng : rng_state;
}.

Definition env_step_call (p : nat * Z) : M world (history * Z * bool * env_info) :=
  log (CallStep p.1 p.2) ;;; on_slot p.1 (step p.2).

(** [[env.step(act) for env, act in zip(envs, actions)]]. *)
Definition step_all (acts : list Z) : M world (list (history * Z * bool * env_info)) :=
  w ⇐ get ;;
  for_each env_step_call (zip (seq 0 (length (envs w))) acts).

(** The body of the tick loop (lines 343-364); the flag is [np.all(done)]. *)
Definition tick (v : round_vars) : M world (round_vars * bool) :=
  let done_prev := done v in
  let '(acts, rng') := policy_fn (obs v) (rng v) in
  step_results ⇐ step_all acts ;;
  let obs_list := (λ r, r.1.1.1) <$> step_results in
  obs' ⇐ stack_batch obs_list ;;
  let rew := (λ r, np_float64 r.1.1.2) <$> step_results in
  let done_raw := (λ r, r.1.2) <$> step_results in
  done' ⇐ lift_result (broadcast2 logical_or done_raw done_prev) ;;
  rew' ⇐ lift_result
           (broadcast2 float64_mul rew ((λ d, float64_of_int (1 - d)) <$> done')) ;;
  rew_sum' ⇐ lift_result (inplace_add (rew_sum v) rew') ;;
  ret (mk_round_vars obs' rew_sum' done' rng', np_all done').

(** [for t in range(num_steps): ... if np.all(done): break]. *)
Fixpoint tick_loop (num_steps : nat) (v : round_vars) : M world round_vars :=
  match num_steps with
  | O => ret v
  | S n =>
      r ⇐ tick v ;;
      if r.2 then ret r.1 else tick_loop n r.1
  end.

Definition env_reset_call (seeds : list Z) (i : nat) : M world history :=
  match seeds !! i with
  | None => raise IndexError
  | Some s => log (CallReset i s) ;;; on_slot i (reset (Some s))
  end.

(** One round [c] of the outer loop (lines 333-366). *)
Definition rollout_round (num_batch : nat) (num_steps : Z) (seeds_list : list Z)
    (c : nat) : M world (list spec_float) :=
  let seeds := take num_batch (drop (c * num_batch) seeds_list) in
  match seeds !! 0 with
  | None => raise IndexError
  | Some s0 =>
      let rng0 := manual_seed s0 in
      obs_list ⇐ for_each (env_reset_call seeds) (seq 0 num_batch) ;;
      obs0 ⇐ stack_batch obs_list ;;
      v ⇐ tick_loop (Z.to_nat num_steps)
            (mk_round_vars obs0 (replicate num_batch (S754_zero false))
               (replicate num_batch 0%Z) rng0) ;;
      ret (rew_sum v)
  end.

(** [_batch_rollout] (lines 321-367).  [randint k] is the value the k-th
    call of [random.randint(0, 2**32 - 1)] returns; the log line printed
    every [log_interval] ticks has no effect on the state. *)
Definition _batch_rollout (num_episodes : Z) (randint : nat → Z)
  : M world (list spec_float) :=
  w ⇐ get ;;
  let num_batch := length (envs w) in
  match envs w !! 0 with
  | None => raise IndexError
  | Some e0 =>
      let num_steps := max_episode_steps (env e0) in
      if (num_episodes mod Z.of_nat num_batch =? 0)%Z then
        let seeds_list := randint <$> seq 0 (Z.to_nat num_episodes) in
        rew_sum_list ⇐ for_each (rollout_round num_batch num_steps seeds_list)
                         (seq 0 (Z.to_nat (num_episodes / Z.of_nat num_batch))) ;;
        match rew_sum_list with
        | [] => raise ValueError
        | _ => ret (concat rew_sum_list)
        end
      else raise AssertionError
  end.

End Rollout.

(** ** Metrics *)

(** The numpy and scipy reductions [print_metrics] calls, over exact
    rationals.  An empty input has no mean ([nan]): [None]. *)
Module Metrics.

Definition np_sum (xs : list Q) : Q := foldr Qplus 0%Q xs.

(** [np.mean]. *)
Definition np_mean (xs : list Q) : option Q :=
  match xs with
  | [] => None
  | _ => Some (np_sum xs / inject_Z (Z.of_nat (length xs)))%Q
  end.

(** [np.var]: the mean of the squared deviations from the mean (ddof = 0). *)
Definition np_var (xs : list Q) : option Q :=
  match np_mean xs with
  | None => None
  | Some m => np_mean (map (λ x, (x - m) * (x - m))%Q xs)
  end.

(** [np.std]: the square root of [np.var]. *)
Definition np_std (xs : list Q) : option R :=
  match np_var xs with
  | None => None
  | Some v => Some (sqrt (Q2R v))
  end.

Fixpoint insert_sorted (x : Q) (xs : list Q) : list Q :=
  match xs with
  | [] => [x]
  | y :: ys => if Qle_bool x y then x :: xs else y :: insert_sorted x ys
  end.

(** [np.sort]. *)
Definition np_sort (xs : list Q) : list Q := foldr insert_sorted [] xs.

(** [np.median]: the middle of the sorted values, or the mean of the two
    middle ones. *)
Definition np_median (xs : list Q) : option Q :=
  let s := np_sort xs in
  let n := length s in
  if Nat.odd n then s !! (n / 2)
  else np_mean (take 2 (drop (n / 2 - 1) s)).

(** [scipy.stats.trim_mean(a, proportiontocut)]: [lowercut] values are cut
    from each end of the sorted input, [lowercut = int(proportiontocut * n)];
    [Raise ValueError] when the proportion is too big. *)
Definition trim_mean (xs : list Q) (proportiontocut : Q) : result (option Q) :=
  let nobs := length xs in
  let lowercut := Z.to_nat (Qfloor (proportiontocut * inject_Z (Z.of_nat nobs))) in
  let uppercut := nobs - lowercut in
  if uppercut <? lowercut then Raise ValueError
  else Ok (np_mean (take (uppercut - lowercut) (drop lowercut (np_sort xs)))).

(** The four numbers [print_metrics] formats (lines 388-392). *)
Record metrics : Type := mk_metrics {
  mean : option Q;
  std : option R;
  median : option Q;
  iqm : result (option Q);
}.

Definition print_metrics (metric : list Q) : metrics :=
  mk_metrics (np_mean metric) (np_std metric) (np_median metric)
             (trim_mean metric (1 # 4)).

End Metrics.

(** The frames a run of steps returned: the last observation of each
    returned dict. *)
Definition returned_frames `{RawEnvironment}
    (rs : list (history * Z * bool * env_info)) : list ndarray :=
  omap (λ r, last (observations r.1.1.1)) rs.

(** The entries of a frame. *)
Definition frame_data (a : ndarray) : list Z := data a.

(** ** Readings of a rollout *)

Section RolloutReadings.
Context `{RawEnvironment} `{JpegCodec} `{Policy} `{RewardReading}.

(** What the reward of a step adds to the cumulative reward of its slot when
    the slot's new done flag is [done_new]: line 355. *)
Definition masked (r : Z) (done_new : Z) : spec_float :=
  float64_mul (np_float64 r) (float64_of_int (1 - done_new)).

(** The cumulative reward of a slot that starts unlatched at [s], after a
    run of reported (reward, done) pairs: the rewards strictly before the
    first done, added in order, every sum rounded to float32. *)
Fixpoint credited (s : spec_float) (outcomes : list (Z * bool)) : spec_float :=
  match outcomes with
  | [] => s
  | (r, d) :: rest =>
      if d then s else credited (float32_iadd s (masked r 0)) rest
  end.

(** The rewards reported from the first done on. *)
Fixpoint rewards_from_done (outcomes : list (Z * bool)) : list Z :=
  match outcomes with
  | [] => []
  | (r, d) :: rest => if d then r :: rest.*1 else rewards_from_done rest
  end.

Definition is_step_call (c : env_call) : Prop :=
  match c with CallStep _ _ => True | CallReset _ _ => False end.

Definition step_call_of (p : nat * Z) : env_call := CallStep p.1 p.2.

(** The number of step calls on slot [i] in a list of calls. *)
Definition is_step_on (i : nat) (c : env_call) : bool :=
  match c with CallStep j _ => Nat.eqb j i | CallReset _ _ => false end.
Fixpoint steps_on (i : nat) (calls : list env_call) : nat :=
  match calls with
  | [] => 0
  | c :: rest => (if is_step_on i c then 1 else 0) + steps_on i rest
  end.

(** The (reward, done) pairs that the environment in slot [i] reports, tick
    by tick, while the tick loop runs from [v] and [w] with a budget of
    [num_steps] ticks; [None] when a tick raises or leaves slot [i] without
    a step. *)
Fixpoint slot_outcomes (i : nat) (num_steps : nat) (v : round_vars) (w : world)
  : option (list (Z * bool)) :=
  match num_steps with
  | O => Some []
  | S n =>
      match (step_all (policy_fn (obs v) (rng v)).1 w).2, tick v w with
      | Ok results, (w1, Ok (v1, brk)) =>
          match results !! i with
          | Some r =>
              if brk then Some [(r.1.1.2, r.1.2)]
              else cons (r.1.1.2, r.1.2) <$> slot_outcomes i n v1 w1
          | None => None
          end
      | _, _ => None
      end
  end.

End RolloutReadings.

(** ** StateActionReturnDataset *)

(** [xs[a:b]] for Python integer bounds: a negative bound counts from the
    right end, both bounds are clamped to the list, and a start at or past
    the stop gives the empty list. *)
Definition py_clamp (len i : Z) : Z :=
  if (i <? 0)%Z then Z.max (i + len) 0 else Z.min i len.

Definition py_slice {A} (xs : list A) (a b : Z) : list A :=
  let len := Z.of_nat (length xs) in
  let a' := py_clamp len a in
  let b' := py_clamp len b in
  take (Z.to_nat (b' - a')) (drop (Z.to_nat a') xs).

(** The dataset class of lines 238-266.  What torch and numpy raise is kept
    apart from the wrapper's exceptions. *)
Module StateActionReturnDataset.

Inductive dataset_exn : Type :=
  | MaxOfEmpty        (* max() of an empty sequence *)
  | Inhomogeneous     (* np.array over frames of different shapes *)
  | InvalidShape.     (* reshape to a shape the input does not fit *)

Inductive outcome (A : Type) : Type :=
  | Returns (a : A)
  | Throws (e : dataset_exn).
Arguments Returns {A} a.
Arguments Throws {A} e.

Record dataset : Type := mk_dataset {
  block_size : Z;
  vocab_size : Z;
  data : list ndarray;
  actions : list Z;
  done_idxs : list Z;
  rtgs : list Z;
  timesteps : list Z;
}.

(** [__init__] (lines 240-247); [max(actions)] raises on an empty sequence. *)
Definition __init__ (data : list ndarray) (block_size : Z) (actions done_idxs
    rtgs timesteps : list Z) : outcome dataset :=
  match actions with
  | [] => Throws MaxOfEmpty
  | a :: rest =>
      Returns (mk_dataset block_size (foldr Z.max a rest + 1)%Z data actions
                 done_idxs rtgs timesteps)
  end.

(** [__len__] (lines 249-250). *)
Definition __len__ (ds : dataset) : Z :=
  (Z.of_nat (length (data ds)) - block_size ds)%Z.

(** The loop of lines 255-258: the first entry of [done_idxs], in list
    order, that is greater than [idx]. *)
Fixpoint first_done_after (idx : Z) (idxs : list Z) : option Z :=
  match idxs with
  | [] => None
  | i :: rest => if (idx <? i)%Z then Some i else first_done_after idx rest
  end.

(** Lines 253-259: the new [idx] and [done_idx]. *)
Definition item_bounds (ds : dataset) (idx : Z) : Z * Z :=
  let block_size := (block_size ds / 3)%Z in
  let done_idx := (idx + block_size)%Z in
  let done_idx :=
    match first_done_after idx (done_idxs ds) with
    | Some i => Z.min i done_idx
    | None => done_idx
    end in
  ((done_idx - block_size)%Z, done_idx).

(** [np.array(frames)]: the entries of equally shaped frames, in order. *)
Definition np_array (frames : list ndarray) : outcome (list Z) :=
  match frames with
  | [] => Returns []
  | f :: rest =>
      if forallb (λ g, bool_decide (shape g = shape f)) rest
      then Returns (concat (frame_data <$> frames))
      else Throws Inhomogeneous
  end.

(** Cutting a flat array into [rows] rows of [width] entries. *)
Fixpoint rows_of {A} (rows width : nat) (flat : list A) : list (list A) :=
  match rows with
  | O => []
  | S r => take width flat :: rows_of r width (drop width flat)
  end.

(** [t.reshape(rows, -1)]: the row count must be positive and divide the
    number of entries. *)
Definition reshape_rows {A} (flat : list A) (rows : Z) : outcome (list (list A)) :=
  let numel := Z.of_nat (length flat) in
  if ((0 <? rows) && (numel mod rows =? 0))%Z
  then Returns (rows_of (Z.to_nat rows) (Z.to_nat (numel / rows)) flat)
  else Throws InvalidShape.

(** [t.unsqueeze(1)] on a 1-d tensor. *)
Definition unsqueeze1 {A} (xs : list A) : list (list A) := (λ x, [x]) <$> xs.

(** The four tensors of an item: [states] and [rtgs] are float32 tensors,
    [actions] and [timesteps] integer tensors. *)
Record item : Type := mk_item {
  item_states : list (list spec_float);
  item_actions : list (list Z);
  item_rtgs : list (list spec_float);
  item_timesteps : list (list Z);
}.

(** [torch.tensor(xs, dtype=torch.float32)] over integers: every entry is
    rounded to float32. *)
Definition float32_tensor (xs : list Z) : list spec_float := float32_of_int <$> xs.

(** [states / 255.]: every entry of the float32 tensor is divided by 255 in
    single precision. *)
Definition scale_states (states : list (list spec_float)) : list (list spec_float) :=
  (λ row : list spec_float,
     (λ v, float32_div v (float32_of_int 255)) <$> row) <$> states.

(** [__getitem__] (lines 252-266). *)
Definition __getitem__ (ds : dataset) (idx : Z) : outcome item :=
  let block_size := (block_size ds / 3)%Z in
  let '(idx, done_idx) := item_bounds ds idx in
  match np_array (py_slice (data ds) idx done_idx) with
  | Throws e => Throws e
  | Returns flat =>
      match reshape_rows (float32_tensor flat) block_size with
      | Throws e => Throws e
      | Returns states =>
          let states := scale_states states in
          Returns (mk_item states
                     (unsqueeze1 (py_slice (actions ds) idx done_idx))
                     (unsqueeze1 (float32_tensor (py_slice (rtgs ds) idx done_idx)))
                     (unsqueeze1 (py_slice (timesteps ds) idx (idx + 1))))
      end
  end.

End StateActionReturnDataset.

(** ** Concrete collaborators for the examples *)

Definition frame (v : Z) : ndarray := mk_ndarray [2; 2] [v; v; v; v].

(** A scripted environment: its state is the list of (reward, done) pairs
    still to come; the frame returned by a step shows the action taken. *)
Definition scripted_env : RawEnvironment := {|
  env_state := list (Z * bool);
  env_info := unit;
  env_reset := λ s _, (s, Ok (frame 9));
  env_step := λ s a,
    match s with
    | [] => (s, Raise (EnvironmentFault 0))
    | (r, d) :: s' => (s', Ok (frame a, r, d, tt))
    end;
  max_episode_steps := λ _, 5%Z;
|}.

(** An environment whose frames are all zero. *)
Definition blank_env : RawEnvironment := {|
  env_state := unit;
  env_info := unit;
  env_reset := λ s _, (s, Ok (frame 0));
  env_step := λ s a, (s, Ok (frame 0, 1%Z, false, tt));
  max_episode_steps := λ _, 5%Z;
|}.

Definition identity_codec : JpegCodec := {| _process_jpeg := λ o, o |}.

(** The rewards of the scripted environments: the token [z] is the double
    nearest to the score [z].  [inf_reward] lies beyond the largest double
    and reads as infinity: it stands for a reward of [float('inf')]. *)
Definition scripted_reading : RewardReading := {| np_float64 := float64_of_int |}.
Definition inf_reward : Z := (2 ^ 1024)%Z.

(** A policy that plays action 3 in every slot. *)
Definition constant_policy : Policy := {|
  rng_state := Z;
  manual_seed := λ s, s;
  policy_fn := λ b g, ((λ _, 3%Z) <$> b_actions b, (g + 1)%Z);
|}.

(** Wrappers over the scripted environment, without the JPEG round trip. *)
Definition scripted_wrapper (n : nat) (script : list (Z * bool)) : wrapper :=
  @__init__ scripted_env script n false.
Definition scripted_reset : option Z → M wrapper history :=
  @reset scripted_env identity_codec.
Definition scripted_step : Z → M wrapper (history * Z * bool * unit) :=
  @step scripted_env identity_codec.

(** Wrappers over the blank environment. *)
Definition blank_wrapper (n : nat) : wrapper := @__init__ blank_env tt n false.
Definition blank_reset : option Z → M wrapper history :=
  @reset blank_env identity_codec.
Definition blank_get_obs : M wrapper history := @_get_obs blank_env.
Definition blank_pad : ndarray → nat → M wrapper unit :=
  @pad_current_episode blank_env.

(** A pool of capacity-[n] wrappers over scripted environments, none of them
    called yet, and the rollout functions over it under the constant policy. *)
Definition scripted_pool (n : nat) (scripts : list (list (Z * bool))) : world :=
  @mk_world scripted_env (scripted_wrapper n <$> scripts) [].
Definition scripted_tick :=
  @tick scripted_env identity_codec constant_policy scripted_reading.
Definition scripted_tick_loop :=
  @tick_loop scripted_env identity_codec constant_policy scripted_reading.
Definition scripted_rollout :=
  @_batch_rollout scripted_env identity_codec constant_policy scripted_reading.

(** Two slots: the first environment terminates on its second step and keeps
    reporting rewards afterwards, the second never terminates. *)
Definition demo_scripts : list (list (Z * bool)) :=
  [ [(1, false); (5, true); (4, false); (2, false); (6, false)];
    [(1, false); (1, false); (1, false); (1, false); (1, false)] ]%Z.

(** The pool after the resets that open a round, and the round's variables. *)
Definition demo_world : world :=
  (for_each (@env_reset_call scripted_env identity_codec [11; 12]%Z) (seq 0 2)
     (scripted_pool 2 demo_scripts)).1.

(** The same two slots, but what the first environment reports once it has
    terminated is an infinite reward; and a pool whose first environment
    reports the infinite reward on the step on which it terminates. *)
Definition overflow_scripts : list (list (Z * bool)) :=
  [ [(1, false); (5, true); (inf_reward, false)];
    [(1, false); (1, false); (1, false)] ]%Z.
Definition overflow_world : world :=
  (for_each (@env_reset_call scripted_env identity_codec [11; 12]%Z) (seq 0 2)
     (scripted_pool 2 overflow_scripts)).1.

Definition terminal_overflow_scripts : list (list (Z * bool)) :=
  [ [(1, false); (inf_reward, true)];
    [(1, false); (1, false)] ]%Z.
Definition terminal_overflow_world : world :=
  (for_each (@env_reset_call scripted_env identity_codec [11; 12]%Z) (seq 0 2)
     (scripted_pool 2 terminal_overflow_scripts)).1.

Definition demo_vars : @round_vars constant_policy :=
  @mk_round_vars constant_policy
    (mk_batch [[zeros_like (frame 9); frame 9]; [zeros_like (frame 9); frame 9]]
              [[0; 0]; [0; 0]]%Z [[0; 0]; [0; 0]]%Z)
    [S754_zero false; S754_zero false] [0; 0]%Z 11%Z.

(** A dataset of ten frames in two episodes that end at positions 4 and 9,
    with [block_size = 6], so that items are windows of two positions; and
    the same data with a first episode of a single position. *)
Definition demo_dataset : StateActionReturnDataset.dataset :=
  StateActionReturnDataset.mk_dataset 6 4
    (frame <$> [0; 10; 20; 30; 40; 50; 60; 70; 80; 90]%Z)
    [0; 1; 2; 3; 0; 1; 2; 3; 0; 1]%Z
    [4; 9]%Z
    [9; 8; 7; 6; 5; 4; 3; 2; 1; 0]%Z
    [0; 1; 2; 3; 0; 1; 2; 3; 4; 0]%Z.

Definition demo_dataset_short_episode : StateActionReturnDataset.dataset :=
  StateActionReturnDataset.mk_dataset 6 4
    (frame <$> [0; 10; 20; 30; 40; 50; 60; 70; 80; 90]%Z)
    [0; 1; 2; 3; 0; 1; 2; 3; 0; 1]%Z
    [1; 9]%Z
    [9; 8; 7; 6; 5; 4; 3; 2; 1; 0]%Z
    [0; 0; 1; 2; 3; 4; 5; 6; 7; 0]%Z.

(** The value of a result, or a default when it is an exception. *)
Definition value_or {A} (r : result A) (default : A) : A :=
  match r with Ok a => a | Raise _ => default end.

(** * Proofs *)

(** ** The model on small inputs *)

Example deque_append_evicts : deque_append 3 [1; 2; 3] 4 = [2; 3; 4].
Proof. reflexivity. Qed.

Example deque_append_grows : deque_append 3 [1] 2 = [1; 2].
Proof. reflexivity. Qed.

Example deque_append_bound_zero : deque_append 0 ([] : list nat) 7 = [].
Proof. reflexivity. Qed.

Example set_last_empty : set_last ([] : list Z) 5%Z = Raise IndexError.
Proof. reflexivity. Qed.

Example py_index_from_the_right : py_index [10; 20; 30] (-1) = Some 30.
Proof. reflexivity. Qed.

Example py_index_out_of_range : py_index [10; 20; 30] (-4) = None.
Proof. reflexivity. Qed.

Example broadcast_stretches :
  broadcast2 Z.mul [2]%Z [1; 0; 1]%Z = Ok [2; 0; 2]%Z.
Proof. reflexivity. Qed.

Example broadcast_mismatch :
  broadcast2 Z.mul [2; 3]%Z [1; 0; 1]%Z = Raise ValueError.
Proof. reflexivity. Qed.

(** IEEE arithmetic as the rollout and the dataset use it: a masked
    infinite reward is nan; a float32 sum is rounded, so that 2^24 + 1 is
    2^24; the pixel value 20 scaled by 255 in single precision. *)
Example infinity_times_zero :
  float64_mul (S754_infinity false) (float64_of_int (1 - 1)) = S754_nan.
Proof. reflexivity. Qed.

Example float32_sum_is_rounded :
  float32_iadd (float32_of_int 16777216) (float64_of_int 1)
  = float32_of_int 16777216.
Proof. vm_compute. reflexivity. Qed.

Example float32_sum_of_small_scores :
  float32_iadd (float32_of_int 1) (float64_mul (float64_of_int 5) (float64_of_int 1))
  = float32_of_int 6.
Proof. vm_compute. reflexivity. Qed.

Example negative_zero_plus_zero :
  float32_iadd (S754_zero true) (S754_zero false) = S754_zero false.
Proof. reflexivity. Qed.

Example pixel_scaled_in_single_precision :
  float32_div (float32_of_int 20) (float32_of_int 255)
  = S754_finite false 10526881 (-27).
Proof. vm_compute. reflexivity. Qed.

(** The table in the docstring of [_get_obs] for N = 3, at reset. *)
Example window_at_reset :
  let w := (scripted_reset None (scripted_wrapper 3 [])).1 in
  obs_stack w = [zeros_like (frame 9); zeros_like (frame 9); frame 9] ∧
  act_stack w = [0; 0; 0]%Z ∧ rew_stack w = [0; 0; 0]%Z ∧
  done_stack w = [1; 1; 0]%Z.
Proof. vm_compute. repeat split. Qed.

(** A step on a wrapper that was never reset finds the deques empty. *)
Example step_before_reset :
  (scripted_step 5%Z (scripted_wrapper 3 [(7, false)]%Z)).2 = Raise IndexError.
Proof. reflexivity. Qed.

(** With capacity 0 nothing is stored and [reset] cannot stack a window. *)
Example reset_capacity_zero :
  (scripted_reset None (scripted_wrapper 0 [])).2 = Raise ValueError.
Proof. reflexivity. Qed.

(** ** Bounded deques *)

Section DequeFacts.
Context {A : Type}.
Implicit Types (d l xs ys : list A) (x : A) (maxlen : nat).

Lemma deque_append_keep_last maxlen d x :
  deque_append maxlen d x = keep_last maxlen (d ++ [x]).
Proof. reflexivity. Qed.

Lemma keep_last_length maxlen l :
  length (keep_last maxlen l) = Nat.min (length l) maxlen.
Proof. unfold keep_last. rewrite length_drop. lia. Qed.

Lemma keep_last_fits maxlen l : length l ≤ maxlen → keep_last maxlen l = l.
Proof.
  intros Hl. unfold keep_last.
  replace (length l - maxlen) with 0 by lia. reflexivity.
Qed.

(** Truncating early does not change what is retained in the end. *)
Lemma keep_last_app maxlen l ys :
  keep_last maxlen (keep_last maxlen l ++ ys) = keep_last maxlen (l ++ ys).
Proof.
  destruct (Nat.le_gt_cases (length l) maxlen) as [Hl|Hl].
  { rewrite (keep_last_fits maxlen l) by exact Hl. reflexivity. }
  unfold keep_last at 1 3.
  rewrite !length_app, keep_last_length.
  replace (Nat.min (length l) maxlen + length ys - maxlen) with (length ys) by lia.
  unfold keep_last.
  destruct (Nat.le_gt_cases (length ys) maxlen) as [Hy|Hy].
  - rewrite drop_app_le by (rewrite length_drop; lia).
    rewrite drop_drop.
    rewrite drop_app_le by lia.
    f_equal. f_equal. lia.
  - rewrite drop_app_ge by (rewrite length_drop; lia).
    rewrite drop_app_ge by lia.
    rewrite length_drop. f_equal. lia.
Qed.

Lemma deque_append_length maxlen d x :
  length (deque_append maxlen d x) = Nat.min (length d + 1) maxlen.
Proof.
  rewrite deque_append_keep_last, keep_last_length, length_app. reflexivity.
Qed.

Lemma deque_append_full maxlen d x :
  length d = maxlen → length (deque_append maxlen d x) = maxlen.
Proof. intros Hd. rewrite deque_append_length. lia. Qed.

(** A full deque shifts left by one. *)
Lemma deque_append_shift maxlen d x :
  length d = maxlen → deque_append maxlen d x = drop 1 (d ++ [x]).
Proof.
  intros Hd. unfold deque_append. rewrite length_app. simpl.
  replace (length d + 1 - maxlen) with 1 by lia. reflexivity.
Qed.

Lemma deque_extend_snoc maxlen d xs x :
  deque_extend maxlen d (xs ++ [x]) = deque_append maxlen (deque_extend maxlen d xs) x.
Proof. unfold deque_extend. apply foldl_snoc. Qed.

(** After at least one append the deque holds the last [maxlen] entries of
    everything it was given. *)
Lemma deque_extend_keep_last maxlen d xs :
  xs ≠ [] → deque_extend maxlen d xs = keep_last maxlen (d ++ xs).
Proof.
  induction xs as [|x xs IH] using rev_ind; [congruence|]. intros _.
  rewrite deque_extend_snoc, deque_append_keep_last.
  destruct xs as [|y ys].
  - reflexivity.
  - rewrite IH by discriminate. rewrite keep_last_app, app_assoc. reflexivity.
Qed.

(** [maxlen] appends or more flush whatever the deque held before. *)
Lemma deque_extend_flush maxlen d xs :
  1 ≤ maxlen → length xs = maxlen → deque_extend maxlen d xs = xs.
Proof.
  intros Hm Hx. rewrite deque_extend_keep_last.
  - unfold keep_last. rewrite length_app.
    replace (length d + length xs - maxlen) with (length d) by lia.
    rewrite drop_app_ge by lia. rewrite Nat.sub_diag. reflexivity.
  - intros ->. simpl in Hx. lia.
Qed.

Lemma set_last_length d x d' : set_last d x = Ok d' → length d' = length d.
Proof.
  destruct d as [|y ys]; [discriminate|]. intros [= <-]. apply length_insert.
Qed.

Lemma set_last_spec d x d' :
  set_last d x = Ok d' → ∃ front y, d = front ++ [y] ∧ d' = front ++ [x].
Proof.
  destruct d as [|y0 ys] using rev_ind; [discriminate|]. clear IHys.
  unfold set_last. destruct (ys ++ [y0]) eqn:E.
  { destruct ys; discriminate. }
  rewrite <- E. intros [= <-]. exists ys, y0. split; [reflexivity|].
  rewrite length_app. simpl.
  replace (length ys + 1 - 1) with (length ys + 0) by lia.
  rewrite insert_app_r. reflexivity.
Qed.

End DequeFacts.

(** ** The wrapper's methods, state by state *)

Section WrapperFacts.
Context `{RawEnvironment} `{JpegCodec}.
Implicit Types (w : wrapper) (h : history).

Lemma np_stack_ok {A} (shp : A → list nat) (xs ys : list A) :
  np_stack shp xs = Ok ys → ys = xs ∧ xs ≠ [].
Proof.
  destruct xs as [|x rest]; simpl; [discriminate|].
  destruct (forallb _ rest); [|discriminate].
  intros [= <-]. split; [reflexivity|discriminate].
Qed.

Lemma np_stack_scalars (xs : list Z) :
  xs ≠ [] → np_stack scalar_shape xs = Ok xs.
Proof.
  destruct xs as [|x rest]; [congruence|]. intros _. simpl.
  replace (forallb _ rest) with true; [reflexivity|].
  symmetry. apply forallb_forall. intros y _. reflexivity.
Qed.

(** [_get_obs] never changes the wrapper. *)
Lemma get_obs_state w : (_get_obs w).1 = w.
Proof.
  unfold _get_obs, bind, get, lift_result, ret.
  destruct (np_stack shape (obs_stack w)); [|reflexivity].
  destruct (np_stack scalar_shape (act_stack w)); [|reflexivity].
  destruct (np_stack scalar_shape (rew_stack w)); reflexivity.
Qed.

(** When [_get_obs] returns, it returns the three deques as they are. *)
Lemma get_obs_ok w w' h :
  _get_obs w = (w', Ok h) →
  w' = w ∧ observations h = obs_stack w ∧ actions h = act_stack w ∧
  rewards h = rew_stack w ∧ obs_stack w ≠ [] ∧ act_stack w ≠ [] ∧ rew_stack w ≠ [].
Proof.
  unfold _get_obs, bind, get, lift_result, ret.
  destruct (np_stack shape (obs_stack w)) as [o|] eqn:Eo; [|discriminate].
  destruct (np_stack scalar_shape (act_stack w)) as [a|] eqn:Ea; [|discriminate].
  destruct (np_stack scalar_shape (rew_stack w)) as [r|] eqn:Er; [|discriminate].
  intros [= <- <-]. simpl.
  apply np_stack_ok in Eo as [-> ?], Ea as [-> ?], Er as [-> ?]. auto 10.
Qed.

Lemma pad_current_episode_state obs n w :
  pad_current_episode obs n w =
  (mk_wrapper (env w) (num_stack_frames w) (jpeg_obs w)
     (deque_extend (num_stack_frames w) (obs_stack w) (replicate n (zeros_like obs)))
     (deque_extend (num_stack_frames w) (act_stack w) (replicate n 0%Z))
     (deque_extend (num_stack_frames w) (rew_stack w) (replicate n 0%Z))
     (deque_extend (num_stack_frames w) (done_stack w) (replicate n 1%Z))
     (deque_extend (num_stack_frames w) (info_stack w) (replicate n None)),
   Ok tt).
Proof.
  revert w. induction n as [|n IH]; intros w.
  - destruct w. reflexivity.
  - simpl. unfold bind at 1 2 3 4 5. simpl. rewrite IH. reflexivity.
Qed.

Lemma reset_unfold kwargs w :
  reset kwargs w =
  match env_reset (env w) kwargs with
  | (e, Raise x) => (set_env e w, Raise x)
  | (e, Ok raw) =>
      _get_obs (reset_window e (if jpeg_obs w then _process_jpeg raw else raw) w)
  end.
Proof.
  unfold reset, bind at 1, raw_reset.
  destruct (env_reset (env w) kwargs) as [e [raw|x]]; [|reflexivity].
  unfold bind at 1, transform, bind at 1, get, ret. simpl.
  do 2 unfold bind at 1. rewrite pad_current_episode_state. simpl.
  unfold bind, obs_append, act_append, rew_append, done_append, info_append,
    modify. simpl.
  unfold reset_window. rewrite !deque_extend_snoc. reflexivity.
Qed.

Lemma step_unfold action w :
  step action w =
  match set_last (act_stack w) action with
  | Raise x => (w, Raise x)
  | Ok acts =>
      match env_step (env w) action with
      | (e, Raise x) => (set_env e (set_act_stack acts w), Raise x)
      | (e, Ok (obs, rew, done, info)) =>
          match set_last (rew_stack w) rew with
          | Raise x => (set_env e (set_act_stack acts w), Raise x)
          | Ok rews =>
              let x := if jpeg_obs w then _process_jpeg obs else obs in
              match _get_obs (step_window e x info acts rews w) with
              | (w', Ok h) => (w', Ok (h, rew, done, info))
              | (w', Raise x) => (w', Raise x)
              end
          end
      end
  end.
Proof.
  unfold step, bind at 1, act_set_last.
  destruct (set_last (act_stack w) action) as [acts|x]; [|reflexivity].
  unfold bind at 1, raw_step. simpl.
  destruct (env_step (env w) action) as [e [[[[obs rew] done] info]|x]];
    [|reflexivity].
  unfold bind at 1, transform, bind at 1, get, ret. simpl.
  unfold bind at 1, rew_set_last. simpl.
  destruct (set_last (rew_stack w) rew) as [rews|x]; [|reflexivity].
  unfold bind, obs_append, act_append, rew_append, info_append, modify. simpl.
  reflexivity.
Qed.

Lemma zeros_like_spec (a : ndarray) :
  shape (zeros_like a) = shape a ∧
  length (data (zeros_like a)) = foldr Nat.mul 1 (shape a) ∧
  Forall (λ v, v = 0%Z) (data (zeros_like a)).
Proof.
  unfold zeros_like. simpl. rewrite length_replicate.
  repeat split. apply Forall_replicate. reflexivity.
Qed.

(** With room for at least one frame, [reset] leaves exactly the padding
    followed by the current frame. *)
Lemma reset_window_stacks e x0 w :
  1 ≤ num_stack_frames w →
  let n := num_stack_frames w in
  obs_stack (reset_window e x0 w) = replicate (n - 1) (zeros_like x0) ++ [x0] ∧
  act_stack (reset_window e x0 w) = replicate (n - 1) 0%Z ++ [0%Z] ∧
  rew_stack (reset_window e x0 w) = replicate (n - 1) 0%Z ++ [0%Z] ∧
  done_stack (reset_window e x0 w) = replicate (n - 1) 1%Z ++ [0%Z] ∧
  info_stack (reset_window e x0 w) = replicate (n - 1) None ++ [None].
Proof.
  intros Hn n. unfold reset_window. simpl. fold n.
  repeat split; apply deque_extend_flush;
    rewrite ?length_app, ?length_replicate; simpl; lia.
Qed.

Lemma reset_window_full e x0 w :
  1 ≤ num_stack_frames w → window_full (reset_window e x0 w).
Proof.
  intros Hn.
  destruct (reset_window_stacks e x0 w Hn) as (Ho & Ha & Hr & Hd & Hi).
  unfold window_full. rewrite Ho, Ha, Hr, Hd, Hi.
  rewrite !length_app, !length_replicate. simpl. lia.
Qed.

(** What a returning [reset] did. *)
Lemma reset_ok kwargs w w' h :
  reset kwargs w = (w', Ok h) →
  ∃ e raw,
    env_reset (env w) kwargs = (e, Ok raw) ∧
    w' = reset_window e (if jpeg_obs w then _process_jpeg raw else raw) w ∧
    observations h = obs_stack w' ∧ actions h = act_stack w' ∧
    rewards h = rew_stack w'.
Proof.
  rewrite reset_unfold.
  destruct (env_reset (env w) kwargs) as [e [raw|x]]; [|discriminate].
  intros Hg. apply get_obs_ok in Hg as (-> & Ho & Ha & Hr & _).
  exists e, raw. auto.
Qed.

(** What a returning [step] did. *)
Lemma step_ok action w w' h rew done info :
  step action w = (w', Ok (h, rew, done, info)) →
  ∃ e obs acts rews,
    env_step (env w) action = (e, Ok (obs, rew, done, info)) ∧
    set_last (act_stack w) action = Ok acts ∧
    set_last (rew_stack w) rew = Ok rews ∧
    w' = step_window e (if jpeg_obs w then _process_jpeg obs else obs)
           info acts rews w ∧
    observations h = obs_stack w' ∧ actions h = act_stack w' ∧
    rewards h = rew_stack w' ∧ actions h ≠ [] ∧ rewards h ≠ [].
Proof.
  rewrite step_unfold.
  destruct (set_last (act_stack w) action) as [acts|x]; [|discriminate].
  destruct (env_step (env w) action) as [e [[[[obs rew'] done'] info']|x]];
    [|discriminate].
  destruct (set_last (rew_stack w) rew') as [rews|x] eqn:Er; [|discriminate].
  simpl.
  destruct (_get_obs _) as [w'' [h'|x]] eqn:Hg; [|discriminate].
  intros [= -> -> -> -> ->].
  apply get_obs_ok in Hg as (-> & Ho & Ha & Hr & _ & Hna & Hnr).
  exists e, obs, acts, rews. rewrite Ha, Hr. auto 10.
Qed.

(** No operation changes the capacity. *)
Lemma run_op_capacity w op : num_stack_frames (run_op w op) = num_stack_frames w.
Proof.
  destruct op as [kwargs|action|obs n|]; simpl.
  - rewrite reset_unfold.
    destruct (env_reset (env w) kwargs) as [e [raw|x]]; [|reflexivity].
    rewrite get_obs_state. reflexivity.
  - rewrite step_unfold.
    destruct (set_last (act_stack w) action) as [acts|x]; [|reflexivity].
    destruct (env_step (env w) action) as [e [[[[obs rew] done] info]|x]];
      [|reflexivity].
    destruct (set_last (rew_stack w) rew) as [rews|x]; [|reflexivity].
    simpl. pose proof (get_obs_state
      (step_window e (if jpeg_obs w then _process_jpeg obs else obs) info acts rews w)) as Hg.
    destruct (_get_obs _) as [w'' [h'|x]]; simpl in *; subst w''; reflexivity.
  - rewrite pad_current_episode_state. reflexivity.
  - rewrite get_obs_state. reflexivity.
Qed.

Lemma deque_extend_full {A} (n : nat) (d xs : list A) :
  length d = n → length (deque_extend n d xs) = n.
Proof.
  intros Hd. destruct xs as [|x xs]; [exact Hd|].
  rewrite deque_extend_keep_last by discriminate.
  rewrite keep_last_length, length_app. simpl. lia.
Qed.

(** Once the window is full, every operation keeps it full, whether the
    operation returns or raises. *)
Lemma run_op_full w op :
  1 ≤ num_stack_frames w → window_full w → window_full (run_op w op).
Proof.
  intros Hn (Ho & Ha & Hr & Hd & Hi).
  destruct op as [kwargs|action|obs n|]; simpl.
  - rewrite reset_unfold.
    destruct (env_reset (env w) kwargs) as [e [raw|x]].
    + rewrite get_obs_state. apply reset_window_full, Hn.
    + unfold window_full. simpl. auto.
  - rewrite step_unfold.
    destruct (set_last (act_stack w) action) as [acts|x] eqn:Ea;
      [|unfold window_full; auto].
    apply set_last_length in Ea.
    destruct (env_step (env w) action) as [e [[[[obs rew] done] info]|x]];
      [|unfold window_full; simpl; intuition congruence].
    destruct (set_last (rew_stack w) rew) as [rews|x] eqn:Er;
      [|unfold window_full; simpl; intuition congruence].
    apply set_last_length in Er. simpl.
    pose proof (get_obs_state
      (step_window e (if jpeg_obs w then _process_jpeg obs else obs) info acts rews w)) as Hg.
    assert (window_full (step_window e
      (if jpeg_obs w then _process_jpeg obs else obs) info acts rews w)) as Hf.
    { unfold window_full, step_window. simpl.
      rewrite !deque_append_full by congruence. auto. }
    destruct (_get_obs _) as [w'' [h'|x]]; simpl in *; subst w''; exact Hf.
  - rewrite pad_current_episode_state. unfold window_full. simpl.
    rewrite !deque_extend_full by assumption. auto.
  - rewrite get_obs_state. unfold window_full. auto.
Qed.

Lemma run_ops_full w ops :
  1 ≤ num_stack_frames w → window_full w →
  window_full (run_ops w ops) ∧
  num_stack_frames (run_ops w ops) = num_stack_frames w.
Proof.
  revert w. induction ops as [|op ops IH]; intros w Hn Hf; [auto|].
  unfold run_ops. simpl. fold (run_ops (run_op w op) ops).
  destruct (IH (run_op w op)) as [Hf' Hn'].
  - rewrite run_op_capacity. exact Hn.
  - apply run_op_full; assumption.
  - split; [exact Hf'|]. rewrite Hn'. apply run_op_capacity.
Qed.

End WrapperFacts.

(** ** The window after [reset] *)

Section ResetClaims.
Context `{RawEnvironment} `{JpegCodec}.
Implicit Types (w : wrapper) (h : history).

(** C3.  For a wrapper of capacity N ≥ 1, right after a [reset] that returns,
    the observation, action, reward and terminal-flag deques each hold
    exactly N entries; the first N-1 terminal flags are 1 (true) and the last
    is 0 (false); the first N-1 observations are [zeros_like] of the frame
    the reset pushed (same shape, every entry 0), the last one is that frame
    (the environment's reset observation, after the optional JPEG round
    trip); every action and reward in the window is 0. *)
Theorem reset_pads_then_fills w kwargs w' h e raw :
  1 ≤ num_stack_frames w →
  reset kwargs w = (w', Ok h) →
  env_reset (env w) kwargs = (e, Ok raw) →
  let n := num_stack_frames w in
  let x0 := if jpeg_obs w then _process_jpeg raw else raw in
  (length (obs_stack w') = n ∧ length (act_stack w') = n ∧
   length (rew_stack w') = n ∧ length (done_stack w') = n) ∧
  (∀ i, i < n - 1 → done_stack w' !! i = Some 1%Z) ∧
  done_stack w' !! (n - 1) = Some 0%Z ∧
  (∀ i, i < n - 1 →
     ∃ o, obs_stack w' !! i = Some o ∧ shape o = shape x0 ∧
          length (data o) = foldr Nat.mul 1 (shape x0) ∧
          Forall (λ v, v = 0%Z) (data o)) ∧
  obs_stack w' !! (n - 1) = Some x0 ∧
  (∀ i, i < n → act_stack w' !! i = Some 0%Z ∧ rew_stack w' !! i = Some 0%Z).
Proof.
  intros Hn Hr He n x0.
  apply reset_ok in Hr as (e' & raw' & He' & -> & _).
  rewrite He in He'. injection He' as <- <-. fold x0.
  destruct (reset_window_stacks e x0 w Hn) as (Ho & Ha & Hrw & Hd & _).
  fold n in Ho, Ha, Hrw, Hd. rewrite Ho, Ha, Hrw, Hd.
  rewrite !length_app, !length_replicate. simpl.
  split; [lia|]. split; [|split; [|split; [|split]]].
  - intros i Hi. rewrite lookup_app_l by (rewrite length_replicate; lia).
    apply lookup_replicate_2, Hi.
  - rewrite lookup_app_r by (rewrite length_replicate; lia).
    rewrite length_replicate, Nat.sub_diag. reflexivity.
  - intros i Hi. exists (zeros_like x0).
    rewrite lookup_app_l by (rewrite length_replicate; lia).
    rewrite lookup_replicate_2 by exact Hi.
    destruct (zeros_like_spec x0) as (? & ? & ?). auto.
  - rewrite lookup_app_r by (rewrite length_replicate; lia).
    rewrite length_replicate, Nat.sub_diag. reflexivity.
  - intros i Hi.
    replace (replicate (n - 1) 0%Z ++ [0%Z]) with (replicate n 0%Z).
    + rewrite lookup_replicate_2 by exact Hi. auto.
    + replace n with ((n - 1) + 1) at 1 by lia.
      rewrite replicate_add. reflexivity.
Qed.

End ResetClaims.

(** A capacity-3 wrapper over the scripted environment, reset once. *)
Lemma reset_pads_then_fills_witness :
  let w := scripted_wrapper 3 [] in
  let w' := (scripted_reset None w).1 in
  let x0 := frame 9 in
  (length (obs_stack w') = 3 ∧ length (act_stack w') = 3 ∧
   length (rew_stack w') = 3 ∧ length (done_stack w') = 3) ∧
  (∀ i, i < 3 - 1 → done_stack w' !! i = Some 1%Z) ∧
  done_stack w' !! (3 - 1) = Some 0%Z ∧
  (∀ i, i < 3 - 1 →
     ∃ o, obs_stack w' !! i = Some o ∧ shape o = shape x0 ∧
          length (data o) = foldr Nat.mul 1 (shape x0) ∧
          Forall (λ v, v = 0%Z) (data o)) ∧
  obs_stack w' !! (3 - 1) = Some x0 ∧
  (∀ i, i < 3 → act_stack w' !! i = Some 0%Z ∧ rew_stack w' !! i = Some 0%Z).
Proof.
  intros w w' x0.
  refine (@reset_pads_then_fills scripted_env identity_codec w None w'
            (mk_history [zeros_like x0; zeros_like x0; x0] [0; 0; 0] [0; 0; 0])%Z
            [] x0 _ _ _).
  - vm_compute. lia.
  - vm_compute. reflexivity.
  - vm_compute. reflexivity.
Defined.

(** ** The window under arbitrary use *)

Section WindowClaims.
Context `{RawEnvironment} `{JpegCodec}.
Implicit Types (w : wrapper) (h : history).

(** C7.  For a wrapper of capacity N ≥ 1 and any sequence of operations
    ([reset], [step], [pad_current_episode], [_get_obs], each returning or
    raising) that follows a [reset] which returned, the observation, action,
    reward and terminal-flag deques have equal lengths, at most N, in the
    state reached; [ops] ranges over every prefix, so this holds after every
    operation. *)
Theorem window_shape_invariant w0 kwargs w1 h1 (ops : list wrapper_op) :
  1 ≤ num_stack_frames w0 →
  reset kwargs w0 = (w1, Ok h1) →
  let w := run_ops w1 ops in
  length (obs_stack w) = length (act_stack w) ∧
  length (act_stack w) = length (rew_stack w) ∧
  length (rew_stack w) = length (done_stack w) ∧
  length (done_stack w) ≤ num_stack_frames w0.
Proof.
  intros Hn Hr w.
  apply reset_ok in Hr as (e & raw & _ & -> & _).
  destruct (run_ops_full
    (reset_window e (if jpeg_obs w0 then _process_jpeg raw else raw) w0) ops)
    as [(Ho & Ha & Hw & Hd & _) Hcap].
  - exact Hn.
  - apply reset_window_full, Hn.
  - fold w in Ho, Ha, Hw, Hd, Hcap. simpl in Hcap. lia.
Qed.

(** C10.  In every history dict that [reset] or [step] returns, the last
    action and the last reward are 0. *)
Theorem returned_history_ends_with_placeholders w :
  (∀ kwargs w' h,
     reset kwargs w = (w', Ok h) →
     last (actions h) = Some 0%Z ∧ last (rewards h) = Some 0%Z) ∧
  (∀ action w' h rew done info,
     step action w = (w', Ok (h, rew, done, info)) →
     last (actions h) = Some 0%Z ∧ last (rewards h) = Some 0%Z).
Proof.
  assert (Hlast : ∀ n (d : list Z), deque_append n d 0%Z ≠ [] →
                    last (deque_append n d 0%Z) = Some 0%Z).
  { intros n d Hne. unfold deque_append in *.
    set (k := length (d ++ [0%Z]) - n) in *.
    destruct (Nat.le_gt_cases (length (d ++ [0%Z])) k) as [Hk|Hk].
    - rewrite drop_ge in Hne by exact Hk. congruence.
    - rewrite length_app in Hk. simpl in Hk.
      rewrite drop_app_le by lia. apply last_snoc. }
  split.
  - intros kwargs w' h Hr.
    rewrite reset_unfold in Hr.
    destruct (env_reset (env w) kwargs) as [e [raw|x]]; [|discriminate].
    apply get_obs_ok in Hr as (-> & _ & Ha & Hw & _ & Hna & Hnw).
    unfold reset_window in *. simpl in *.
    rewrite deque_extend_snoc in *. rewrite Ha, Hw.
    split; apply Hlast; assumption.
  - intros action w' h rew done info Hs.
    apply step_ok in Hs
      as (e & obs & acts & rews & _ & _ & _ & -> & _ & Ha & Hw & Hna & Hnw).
    rewrite Ha, Hw in *. unfold step_window in *. simpl in *.
    split; apply Hlast; assumption.
Qed.

End WindowClaims.

(** A capacity-3 wrapper that is reset, stepped, padded by hand, read, and
    stepped again into an environment fault. *)
Lemma window_shape_invariant_witness :
  let w0 := scripted_wrapper 3 [(7, false)]%Z in
  let w1 := (scripted_reset None w0).1 in
  let ops := [OpStep 5%Z; OpPad (frame 1) 2; OpGetObs; OpStep 1%Z] in
  let w := @run_ops scripted_env identity_codec w1 ops in
  length (obs_stack w) = length (act_stack w) ∧
  length (act_stack w) = length (rew_stack w) ∧
  length (rew_stack w) = length (done_stack w) ∧
  length (done_stack w) ≤ 3.
Proof.
  intros w0 w1 ops w.
  refine (@window_shape_invariant scripted_env identity_codec w0 None w1
            (mk_history [zeros_like (frame 9); zeros_like (frame 9); frame 9]
               [0; 0; 0] [0; 0; 0])%Z ops _ _).
  - vm_compute. lia.
  - vm_compute. reflexivity.
Defined.

(** The dicts returned by a reset and by the step that follows it. *)
Lemma returned_history_ends_with_placeholders_witness :
  let w0 := scripted_wrapper 2 [(7, false)]%Z in
  let w1 := (scripted_reset None w0).1 in
  let h1 := mk_history [zeros_like (frame 9); frame 9] [0; 0]%Z [0; 0]%Z in
  let h2 := mk_history [frame 9; frame 5] [5; 0]%Z [7; 0]%Z in
  (last (actions h1) = Some 0%Z ∧ last (rewards h1) = Some 0%Z) ∧
  (last (actions h2) = Some 0%Z ∧ last (rewards h2) = Some 0%Z).
Proof.
  intros w0 w1 h1 h2. split.
  - refine (proj1 (@returned_history_ends_with_placeholders
                     scripted_env identity_codec w0) None w1 h1 _).
    vm_compute. reflexivity.
  - refine (proj2 (@returned_history_ends_with_placeholders
                     scripted_env identity_codec w1)
                  5%Z (scripted_step 5%Z w1).1 h2 7%Z false tt _).
    vm_compute. reflexivity.
Defined.

(** ** The causal shift of [step] *)

Section StepClaims.
Context `{RawEnvironment} `{JpegCodec}.
Implicit Types (w : wrapper) (h : history).

(** [step] never touches the terminal-flag deque, whatever its outcome. *)
Lemma step_keeps_done_stack action w :
  done_stack (step action w).1 = done_stack w.
Proof.
  rewrite step_unfold.
  destruct (set_last (act_stack w) action) as [acts|x]; [|reflexivity].
  destruct (env_step (env w) action) as [e [[[[obs rew] done] info]|x]];
    [|reflexivity].
  destruct (set_last (rew_stack w) rew) as [rews|x]; [|reflexivity].
  simpl. pose proof (get_obs_state
    (step_window e (if jpeg_obs w then _process_jpeg obs else obs) info acts rews w)) as Hg.
  destruct (_get_obs _) as [w'' [h'|x]]; simpl in *; subst w''; reflexivity.
Qed.

(** On a full window of capacity at least 2, a returning [step] leaves its
    action and the reward it returns in the second-to-last slot. *)
Lemma step_shift_full action w w' h rew done info :
  2 ≤ num_stack_frames w → window_full w →
  step action w = (w', Ok (h, rew, done, info)) →
  act_stack w' !! (num_stack_frames w - 2) = Some action ∧
  rew_stack w' !! (num_stack_frames w - 2) = Some rew.
Proof.
  intros Hn (_ & Ha & Hr & _) Hs.
  apply step_ok in Hs as (e & obs & acts & rews & _ & Hsa & Hsr & -> & _).
  apply set_last_spec in Hsa as (fa & ya & Hfa & ->).
  apply set_last_spec in Hsr as (fr & yr & Hfr & ->).
  rewrite Hfa in Ha. rewrite Hfr in Hr. rewrite length_app in Ha, Hr.
  simpl in Ha, Hr. unfold step_window. simpl.
  rewrite !deque_append_shift by (rewrite length_app; simpl; lia).
  rewrite !lookup_drop.
  replace (1 + (num_stack_frames w - 2)) with (num_stack_frames w - 1) by lia.
  rewrite <- !app_assoc. simpl.
  split.
  - rewrite lookup_app_r by lia.
    replace (num_stack_frames w - 1 - length fa) with 0 by lia. reflexivity.
  - rewrite lookup_app_r by lia.
    replace (num_stack_frames w - 1 - length fr) with 0 by lia. reflexivity.
Qed.

(** C4 (amended).  For a wrapper of capacity N ≥ 2 that has been reset and
    then used in any way, after a call [step(ak)] that returns, position
    N - 2 of the action sequence holds [ak] and position N - 2 of the reward
    sequence holds the reward that call returned, in the wrapper's deques
    and in the returned dict alike. *)
Theorem step_causal_shift w0 kwargs w1 h1 (ops : list wrapper_op)
    ak w' h rew done info :
  2 ≤ num_stack_frames w0 →
  reset kwargs w0 = (w1, Ok h1) →
  step ak (run_ops w1 ops) = (w', Ok (h, rew, done, info)) →
  let pos := (Z.of_nat (num_stack_frames w0) - 2)%Z in
  py_index (act_stack w') pos = Some ak ∧
  py_index (rew_stack w') pos = Some rew ∧
  py_index (actions h) pos = Some ak ∧
  py_index (rewards h) pos = Some rew.
Proof.
  intros Hn Hr Hs pos.
  apply reset_ok in Hr as (e & raw & _ & -> & _).
  destruct (run_ops_full
    (reset_window e (if jpeg_obs w0 then _process_jpeg raw else raw) w0) ops)
    as [Hfull Hcap]; [simpl; lia|apply reset_window_full; lia|].
  simpl in Hcap.
  pose proof Hs as Hs'.
  apply step_shift_full in Hs' as [Hact Hrew]; [|lia|exact Hfull].
  rewrite Hcap in Hact, Hrew.
  apply step_ok in Hs as (_ & _ & _ & _ & _ & _ & _ & _ & _ & Ha & Hw & _).
  rewrite Ha, Hw.
  assert (py_index (act_stack w') pos = act_stack w' !! (num_stack_frames w0 - 2)) as ->.
  { unfold py_index, pos. destruct (Z.leb_spec 0 (Z.of_nat (num_stack_frames w0) - 2)); [|lia].
    f_equal. lia. }
  assert (py_index (rew_stack w') pos = rew_stack w' !! (num_stack_frames w0 - 2)) as ->.
  { unfold py_index, pos. destruct (Z.leb_spec 0 (Z.of_nat (num_stack_frames w0) - 2)); [|lia].
    f_equal. lia. }
  auto.
Qed.

End StepClaims.

(** Two steps on a capacity-3 wrapper; the second plays action 6 and earns
    reward 8. *)
Lemma step_causal_shift_witness :
  let w0 := scripted_wrapper 3 [(7, false); (8, false)]%Z in
  let w1 := (scripted_reset None w0).1 in
  let w' := (scripted_step 6%Z (@run_ops scripted_env identity_codec w1 [OpStep 5%Z])).1 in
  let h := mk_history [frame 9; frame 5; frame 6] [5; 6; 0]%Z [7; 8; 0]%Z in
  py_index (act_stack w') (3 - 2) = Some 6%Z ∧
  py_index (rew_stack w') (3 - 2) = Some 8%Z ∧
  py_index (actions h) (3 - 2) = Some 6%Z ∧
  py_index (rewards h) (3 - 2) = Some 8%Z.
Proof.
  intros w0 w1 w' h.
  refine (@step_causal_shift scripted_env identity_codec w0 None w1
            (mk_history [zeros_like (frame 9); zeros_like (frame 9); frame 9]
               [0; 0; 0] [0; 0; 0])%Z
            [OpStep 5%Z] 6%Z w' h 8%Z false tt _ _ _).
  - vm_compute. lia.
  - vm_compute. reflexivity.
  - vm_compute. reflexivity.
Defined.

(** C4, as stated, fails at capacity 1 (the constructor's default): after
    reset and [step(5)], which returns reward 7, position 1 - 2 = -1 of the
    action and reward sequences is the last entry, the placeholder 0; the
    action 5 and the reward 7 were evicted by the append. *)
Lemma step_causal_shift_fails_at_capacity_one :
  let w0 := scripted_wrapper 1 [(7, false)]%Z in
  let w1 := (scripted_reset None w0).1 in
  ∃ w' h,
    scripted_step 5%Z w1 = (w', Ok (h, 7%Z, false, tt)) ∧
    act_stack w' = [0%Z] ∧ rew_stack w' = [0%Z] ∧
    py_index (act_stack w') (1 - 2) ≠ Some 5%Z ∧
    py_index (rew_stack w') (1 - 2) ≠ Some 7%Z.
Proof.
  intros w0 w1. eexists _, _. split; [vm_compute; reflexivity|].
  vm_compute. repeat split; discriminate.
Qed.

(** C5: the code at capacity 3, after reset and one step whose raw [done] is
    false.  The observation, action and reward deques have shifted: they hold
    one padding entry, the reset frame and the new frame.  The terminal-flag
    deque has not: it still reads [1; 1; 0], flagging the reset frame as
    padding, where a pushed false flag would give [1; 0; 0]. *)
Theorem step_leaves_terminal_flags_stale :
  let w0 := scripted_wrapper 3 [(7, false)]%Z in
  let w1 := (scripted_reset None w0).1 in
  let w2 := (scripted_step 5%Z w1).1 in
  (scripted_step 5%Z w1).2
    = Ok (mk_history [zeros_like (frame 9); frame 9; frame 5] [0; 5; 0]%Z [0; 7; 0]%Z,
          7%Z, false, tt) ∧
  obs_stack w2 = [zeros_like (frame 9); frame 9; frame 5] ∧
  done_stack w1 = [1; 1; 0]%Z ∧
  done_stack w2 = [1; 1; 0]%Z ∧
  done_stack w2 ≠ [1; 0; 0]%Z.
Proof.
  intros w0 w1 w2. vm_compute. repeat split. discriminate.
Qed.

(** ** Reading the window back *)

Section SnapshotClaims.
Context `{RawEnvironment} `{JpegCodec}.
Implicit Types (w : wrapper) (h : history).

Lemma np_stack_uniform {A} (shp : A → list nat) (xs : list A) :
  xs ≠ [] → (∀ a b, a ∈ xs → b ∈ xs → shp a = shp b) → np_stack shp xs = Ok xs.
Proof.
  destruct xs as [|x rest]; [congruence|]. intros _ Hu. simpl.
  replace (forallb _ rest) with true; [reflexivity|].
  symmetry. apply forallb_forall. intros y Hy.
  apply bool_decide_eq_true. apply Hu.
  - right. apply list_elem_of_In, Hy.
  - left.
Qed.

(** C6 (amended).  For a wrapper of capacity N ≥ 1 that has been reset and
    then used in any way, [_get_obs] leaves the wrapper as it is; when it
    returns, the dict holds the observation, action and reward deques as they
    are (oldest first), each of length exactly N, and nothing else; and it
    does return whenever the frames in the window agree in shape. *)
Theorem get_obs_reads_three_deques w0 kwargs w1 h1 (ops : list wrapper_op) :
  1 ≤ num_stack_frames w0 →
  reset kwargs w0 = (w1, Ok h1) →
  let w := run_ops w1 ops in
  let n := num_stack_frames w0 in
  (_get_obs w).1 = w ∧
  (∀ h, (_get_obs w).2 = Ok h →
        h = mk_history (obs_stack w) (act_stack w) (rew_stack w) ∧
        length (observations h) = n ∧ length (actions h) = n ∧
        length (rewards h) = n) ∧
  ((∀ a b, a ∈ obs_stack w → b ∈ obs_stack w → shape a = shape b) →
   ∃ h, (_get_obs w).2 = Ok h).
Proof.
  intros Hn Hr w n.
  apply reset_ok in Hr as (e & raw & _ & -> & _).
  destruct (run_ops_full
    (reset_window e (if jpeg_obs w0 then _process_jpeg raw else raw) w0) ops)
    as [(Ho & Ha & Hw & _) Hcap]; [exact Hn|apply reset_window_full, Hn|].
  fold w in Ho, Ha, Hw, Hcap. simpl in Hcap. rewrite Hcap in Ho, Ha, Hw. fold n in Ho, Ha, Hw.
  split; [apply get_obs_state|]. split.
  - intros h Hg. destruct (_get_obs w) as [w'' r] eqn:E. simpl in Hg. subst r.
    apply get_obs_ok in E as (_ & Eo & Ea & Er & _).
    destruct h as [o a r]. simpl in *. subst o a r. auto.
  - intros Hu. unfold _get_obs, bind, get, lift_result, ret.
    rewrite np_stack_uniform; [|intros E; rewrite E in Ho; simpl in Ho; lia|exact Hu].
    rewrite !np_stack_scalars; [simpl; eauto| |].
    + intros E; rewrite E in Hw; simpl in Hw; lia.
    + intros E; rewrite E in Ha; simpl in Ha; lia.
Qed.

End SnapshotClaims.

(** Reading a capacity-2 wrapper after a reset and one step. *)
Lemma get_obs_reads_three_deques_witness :
  let w0 := scripted_wrapper 2 [(7, false)]%Z in
  let w1 := (scripted_reset None w0).1 in
  let w := @run_ops scripted_env identity_codec w1 [OpStep 5%Z] in
  (@_get_obs scripted_env w).1 = w ∧
  (∀ h, (@_get_obs scripted_env w).2 = Ok h →
        h = mk_history (obs_stack w) (act_stack w) (rew_stack w) ∧
        length (observations h) = 2 ∧ length (actions h) = 2 ∧
        length (rewards h) = 2) ∧
  ((∀ a b, a ∈ obs_stack w → b ∈ obs_stack w → shape a = shape b) →
   ∃ h, (@_get_obs scripted_env w).2 = Ok h).
Proof.
  intros w0 w1 w.
  refine (@get_obs_reads_three_deques scripted_env identity_codec w0 None w1
            (mk_history [zeros_like (frame 9); frame 9] [0; 0] [0; 0])%Z
            [OpStep 5%Z] _ _).
  - vm_compute. lia.
  - vm_compute. reflexivity.
Defined.

(** C6, as stated, fails on the terminal flags: the dict has three keys and
    none of them carries the terminal-flag deque.  Two capacity-1 wrappers
    over the blank environment, one just reset and one padded by hand
    afterwards, hold different terminal flags, [0] and [1], and get the same
    dict from [_get_obs]. *)
Lemma get_obs_omits_terminal_flags :
  let wa := (blank_reset None (blank_wrapper 1)).1 in
  let wb := (blank_pad (frame 0) 1 wa).1 in
  let h := mk_history [frame 0] [0%Z] [0%Z] in
  (blank_get_obs wa).2 = Ok h ∧ (blank_get_obs wb).2 = Ok h ∧
  done_stack wa = [0%Z] ∧ done_stack wb = [1%Z] ∧
  done_stack wa ≠ done_stack wb.
Proof.
  intros wa wb h. vm_compute. repeat split. discriminate.
Qed.

(** ** IEEE arithmetic *)

(** Rounding to a format of precision [prec]: whatever the mantissa and the
    exponent, the result is a member of the format. *)
Section RoundingFacts.
Variables prec emax : Z.
Hypothesis prec_pos : (0 < prec)%Z.

Local Abbreviation fexp := (fexp prec emax).
Local Abbreviation emin := (emin prec emax).

Lemma fexp_mono a b : (a <= b)%Z → (fexp a <= fexp b)%Z.
Proof. unfold SpecFloat.fexp. lia. Qed.

Lemma fexp_emin : fexp emin = emin.
Proof. unfold SpecFloat.fexp. lia. Qed.

Lemma fexp_above a : (a <= fexp a)%Z → fexp a = emin.
Proof. unfold SpecFloat.fexp. lia. Qed.

(** The number of binary digits of a positive mantissa. *)
Lemma digits2_pos_bounds p :
  (2 ^ (Zpos (digits2_pos p) - 1) <= Zpos p < 2 ^ Zpos (digits2_pos p))%Z.
Proof.
  induction p as [p IH|p IH|]; cbn [digits2_pos].
  - rewrite Pos2Z.inj_succ.
    replace (Z.succ (Zpos (digits2_pos p)) - 1)%Z
      with (Z.succ (Zpos (digits2_pos p) - 1))%Z by lia.
    rewrite !Z.pow_succ_r by lia. lia.
  - rewrite Pos2Z.inj_succ.
    replace (Z.succ (Zpos (digits2_pos p)) - 1)%Z
      with (Z.succ (Zpos (digits2_pos p) - 1))%Z by lia.
    rewrite !Z.pow_succ_r by lia. lia.
  - simpl. lia.
Qed.

Lemma digits2_pos_unique p k :
  (2 ^ (k - 1) <= Zpos p < 2 ^ k)%Z → Zpos (digits2_pos p) = k.
Proof.
  intros [Hlo Hhi]. pose proof (digits2_pos_bounds p) as [Dlo Dhi].
  destruct (Z.lt_trichotomy (Zpos (digits2_pos p)) k) as [Hlt|[Heq|Hgt]];
    [exfalso|exact Heq|exfalso].
  - assert (2 ^ Zpos (digits2_pos p) <= 2 ^ (k - 1))%Z
      by (apply Z.pow_le_mono_r; lia).
    lia.
  - assert (0 <= k)%Z.
    { destruct (Z.neg_nonneg_cases k) as [Hneg|]; [|assumption].
      rewrite (Z.pow_neg_r 2 k) in Hhi by exact Hneg. lia. }
    assert (2 ^ k <= 2 ^ (Zpos (digits2_pos p) - 1))%Z
      by (apply Z.pow_le_mono_r; lia).
    lia.
Qed.

Lemma Zdigits2_mono m m' : (0 <= m <= m')%Z → (Zdigits2 m <= Zdigits2 m')%Z.
Proof.
  intros [H0 Hle]. destruct m as [|p|p]; [|clear H0|lia].
  - destruct m'; simpl; lia.
  - destruct m' as [|p'|p']; [lia| |lia]. simpl.
    pose proof (digits2_pos_bounds p) as [Dlo _].
    pose proof (digits2_pos_bounds p') as [_ Dhi'].
    destruct (Z.le_gt_cases (Zpos (digits2_pos p)) (Zpos (digits2_pos p')))
      as [|Hgt]; [assumption|exfalso].
    assert (2 ^ Zpos (digits2_pos p') <= 2 ^ (Zpos (digits2_pos p) - 1))%Z
      by (apply Z.pow_le_mono_r; lia).
    lia.
Qed.

(** [shr_1] halves the mantissa. *)
Lemma shr_1_m mrs : (0 <= shr_m mrs)%Z → shr_m (shr_1 mrs) = (shr_m mrs / 2)%Z.
Proof.
  destruct mrs as [m r s]. cbn [shr_m shr_1]. intros Hm.
  destruct m as [|[p|p|]|p]; cbn [shr_m]; try lia; try reflexivity.
  - apply (Z.div_unique _ _ _ 1); lia.
  - apply (Z.div_unique _ _ _ 0); lia.
Qed.

Lemma iter_pos_shr_1 p mrs :
  (0 <= shr_m mrs)%Z →
  shr_m (SpecFloat.iter_pos shr_1 p mrs) = (shr_m mrs / 2 ^ Zpos p)%Z.
Proof.
  revert mrs. induction p as [p IH|p IH|]; intros mrs Hm; cbn [SpecFloat.iter_pos].
  - assert (H1 : (0 <= shr_m (shr_1 mrs))%Z).
    { rewrite shr_1_m by exact Hm. apply Z.div_pos; lia. }
    assert (H2 : (0 <= shr_m (SpecFloat.iter_pos shr_1 p (shr_1 mrs)))%Z).
    { rewrite IH by exact H1. apply Z.div_pos; [exact H1|]. apply Z.pow_pos_nonneg; lia. }
    rewrite IH by exact H2. rewrite IH by exact H1. rewrite shr_1_m by exact Hm.
    rewrite !Z.div_div by (try apply Z.pow_pos_nonneg; lia).
    f_equal. rewrite (Pos2Z.inj_xI p).
    replace (2 * Zpos p + 1)%Z with (1 + Zpos p + Zpos p)%Z by lia.
    rewrite !Z.pow_add_r by lia. lia.
  - assert (H2 : (0 <= shr_m (SpecFloat.iter_pos shr_1 p mrs))%Z).
    { rewrite IH by exact Hm. apply Z.div_pos; [exact Hm|]. apply Z.pow_pos_nonneg; lia. }
    rewrite IH by exact H2. rewrite IH by exact Hm.
    rewrite !Z.div_div by (try apply Z.pow_pos_nonneg; lia).
    f_equal. rewrite (Pos2Z.inj_xO p).
    replace (2 * Zpos p)%Z with (Zpos p + Zpos p)%Z by lia.
    rewrite !Z.pow_add_r by lia. lia.
  - rewrite shr_1_m by exact Hm. reflexivity.
Qed.

Lemma shr_record_of_loc_m m l : shr_m (shr_record_of_loc m l) = m.
Proof. destruct l as [|[| |]]; reflexivity. Qed.

(** A right shift to the exponent of the format leaves a mantissa and an
    exponent in canonical form. *)
Lemma shr_fexp_canonical m e l :
  (0 <= m)%Z → (e <= fexp (Zdigits2 m + e))%Z →
  (0 <= shr_m (shr_fexp prec emax m e l).1)%Z ∧
  fexp (Zdigits2 (shr_m (shr_fexp prec emax m e l).1) + (shr_fexp prec emax m e l).2)
  = (shr_fexp prec emax m e l).2.
Proof.
  intros Hm Hn. unfold shr_fexp, shr.
  destruct (fexp (Zdigits2 m + e) - e)%Z as [|n|n] eqn:En; [|clear Hn|lia].
  - cbn [fst snd]. rewrite shr_record_of_loc_m. split; [exact Hm|lia].
  - cbn [fst snd].
    rewrite iter_pos_shr_1 by (rewrite shr_record_of_loc_m; exact Hm).
    rewrite shr_record_of_loc_m.
    assert (Hp : (0 < 2 ^ Zpos n)%Z) by (apply Z.pow_pos_nonneg; lia).
    split; [apply Z.div_pos; lia|].
    assert (He' : (e + Zpos n)%Z = fexp (Zdigits2 m + e)) by lia.
    destruct m as [|p|p]; [| |lia].
    + rewrite Z.div_0_l by lia. cbn [Zdigits2] in *.
      rewrite Z.add_0_l in *. rewrite He'.
      rewrite (fexp_above e) by lia. apply fexp_emin.
    + cbn [Zdigits2] in *.
      pose proof (digits2_pos_bounds p) as [Dlo Dhi].
      set (d := Zpos (digits2_pos p)) in *.
      destruct (Z.le_gt_cases d (Zpos n)) as [Hge|Hlt].
      * assert (Hsmall : (Zpos p / 2 ^ Zpos n = 0)%Z).
        { apply Z.div_small. split; [lia|].
          assert (2 ^ d <= 2 ^ Zpos n)%Z by (apply Z.pow_le_mono_r; lia). lia. }
        rewrite Hsmall. cbn [Zdigits2]. rewrite Z.add_0_l, He'.
        rewrite (fexp_above (d + e)) by lia. apply fexp_emin.
      * assert (Hq : (2 ^ (d - Zpos n - 1) <= Zpos p / 2 ^ Zpos n < 2 ^ (d - Zpos n))%Z).
        { split.
          - apply Z.div_le_lower_bound; [lia|].
            rewrite <- Z.pow_add_r by lia.
            replace (Zpos n + (d - Zpos n - 1))%Z with (d - 1)%Z by lia. exact Dlo.
          - apply Z.div_lt_upper_bound; [lia|].
            rewrite <- Z.pow_add_r by lia.
            replace (Zpos n + (d - Zpos n))%Z with d by lia. exact Dhi. }
        destruct (Zpos p / 2 ^ Zpos n)%Z as [|q|q] eqn:Eq.
        -- assert (0 < 2 ^ (d - Zpos n - 1))%Z by (apply Z.pow_pos_nonneg; lia). lia.
        -- cbn [Zdigits2]. rewrite (digits2_pos_unique q (d - Zpos n)) by exact Hq.
           replace (d - Zpos n + (e + Zpos n))%Z with (d + e)%Z by lia. lia.
        -- assert (0 < 2 ^ (d - Zpos n - 1))%Z by (apply Z.pow_pos_nonneg; lia). lia.
Qed.

Lemma round_nearest_even_bounds m l :
  (m <= round_nearest_even m l <= m + 1)%Z.
Proof.
  destruct l as [|[| |]]; cbn [round_nearest_even]; try lia.
  destruct (Z.even m); lia.
Qed.

(** Rounding yields a member of the format. *)
Lemma binary_round_aux_valid sx mx ex lx :
  (0 <= mx)%Z → (ex <= fexp (Zdigits2 mx + ex))%Z →
  valid_binary prec emax (binary_round_aux prec emax sx mx ex lx) = true.
Proof.
  intros Hm Hn. unfold binary_round_aux.
  destruct (shr_fexp_canonical mx ex lx Hm Hn) as [Hm1 Hc1].
  destruct (shr_fexp prec emax mx ex lx) as [mrs1 e1]. cbn [fst snd] in Hm1, Hc1.
  pose proof (round_nearest_even_bounds (shr_m mrs1) (loc_of_shr_record mrs1)) as Hr.
  set (m2 := round_nearest_even (shr_m mrs1) (loc_of_shr_record mrs1)) in *.
  assert (Hm2 : (0 <= m2)%Z) by lia.
  assert (Hn2 : (e1 <= fexp (Zdigits2 m2 + e1))%Z).
  { rewrite <- Hc1 at 1. apply fexp_mono.
    pose proof (Zdigits2_mono (shr_m mrs1) m2). lia. }
  destruct (shr_fexp_canonical m2 e1 loc_Exact Hm2 Hn2) as [Hm3 Hc3].
  destruct (shr_fexp prec emax m2 e1 loc_Exact) as [mrs3 e3]. cbn [fst snd] in Hm3, Hc3.
  destruct (shr_m mrs3) as [|m3|m3]; [reflexivity| |reflexivity].
  destruct (Z.leb e3 (emax - prec)) eqn:Hle; [|reflexivity].
  cbn [valid_binary]. unfold bounded, canonical_mantissa.
  cbn [Zdigits2] in Hc3. rewrite Hc3, Z.eqb_refl, Hle. reflexivity.
Qed.

Lemma Zpos_iter_xO m d : Zpos (Pos.iter xO m d) = (Zpos m * 2 ^ Zpos d)%Z.
Proof.
  rewrite (Pos.iter_swap_gen _ _ Zpos xO (Z.mul 2)) by reflexivity.
  change (Pos.iter (Z.mul 2) (Zpos m) d) with (Z.shiftl (Zpos m) (Zpos d)).
  apply Z.shiftl_mul_pow2. lia.
Qed.

Lemma binary_round_valid s m e :
  valid_binary prec emax (binary_round prec emax s m e) = true.
Proof.
  unfold binary_round, shl_align.
  destruct (fexp (Zpos (digits2_pos m) + e) - e)%Z as [|d|d] eqn:Ed.
  - apply binary_round_aux_valid; [lia|]. cbn [Zdigits2]. lia.
  - apply binary_round_aux_valid; [lia|]. cbn [Zdigits2]. lia.
  - apply binary_round_aux_valid; [lia|]. cbn [Zdigits2].
    pose proof (digits2_pos_bounds m) as [Dlo Dhi].
    assert (Hp : (0 < 2 ^ Zpos d)%Z) by (apply Z.pow_pos_nonneg; lia).
    rewrite (digits2_pos_unique (Pos.iter xO m d) (Zpos (digits2_pos m) + Zpos d)).
    + replace (Zpos (digits2_pos m) + Zpos d + fexp (Zpos (digits2_pos m) + e))%Z
        with (Zpos (digits2_pos m) + e)%Z by lia.
      lia.
    + rewrite Zpos_iter_xO.
      replace (Zpos (digits2_pos m) + Zpos d - 1)%Z
        with (Zpos (digits2_pos m) - 1 + Zpos d)%Z by lia.
      rewrite !Z.pow_add_r by lia. split.
      * apply Z.mul_le_mono_nonneg_r; lia.
      * apply Z.mul_lt_mono_pos_r; lia.
Qed.

End RoundingFacts.

Lemma digits2_pos_iter_xO m d :
  Zpos (digits2_pos (Pos.iter xO m d)) = (Zpos (digits2_pos m) + Zpos d)%Z.
Proof.
  apply digits2_pos_unique. rewrite Zpos_iter_xO.
  pose proof (digits2_pos_bounds m) as [Dlo Dhi].
  assert (Hp : (0 < 2 ^ Zpos d)%Z) by (apply Z.pow_pos_nonneg; lia).
  replace (Zpos (digits2_pos m) + Zpos d - 1)%Z
    with (Zpos (digits2_pos m) - 1 + Zpos d)%Z by lia.
  rewrite !Z.pow_add_r by lia. split.
  - apply Z.mul_le_mono_nonneg_r; lia.
  - apply Z.mul_lt_mono_pos_r; lia.
Qed.

(** Shifting out the zeros that a left shift brought in is exact. *)
Lemma iter_pos_shr_1_iter_xO d m :
  SpecFloat.iter_pos shr_1 d (Build_shr_record (Zpos (Pos.iter xO m d)) false false)
  = Build_shr_record (Zpos m) false false.
Proof.
  revert m. induction d as [d IH|d IH|]; intros m; cbn [SpecFloat.iter_pos Pos.iter].
  - cbn [shr_1 orb]. rewrite IH. apply IH.
  - rewrite IH. apply IH.
  - reflexivity.
Qed.

(** Rounding a mantissa and an exponent that are in canonical form changes
    nothing. *)
Lemma binary_round_aux_canonical prec emax s m e :
  bounded prec emax m e = true →
  binary_round_aux prec emax s (Zpos m) e loc_Exact = S754_finite s m e.
Proof.
  unfold bounded, canonical_mantissa. intros Hb.
  apply andb_prop in Hb as [Hc He]. apply Z.eqb_eq in Hc.
  unfold binary_round_aux, shr_fexp. cbn [Zdigits2].
  rewrite Hc, Z.sub_diag.
  cbn [shr shr_record_of_loc shr_m loc_of_shr_record round_nearest_even].
  cbn [Zdigits2]. rewrite Hc, Z.sub_diag. cbn [shr shr_record_of_loc shr_m].
  rewrite He. reflexivity.
Qed.

Section FloatFacts.
Implicit Types (x y a : spec_float).

(** Rounding a mantissa and exponent that already are in the format's
    canonical form returns them. *)
Lemma binary_round_canonical prec emax s m e :
  bounded prec emax m e = true → binary_round prec emax s m e = S754_finite s m e.
Proof.
  intros Hb. pose proof Hb as Hb'. unfold bounded, canonical_mantissa in Hb'.
  apply andb_prop in Hb' as [Hc _]. apply Z.eqb_eq in Hc.
  unfold binary_round, shl_align. rewrite Hc, Z.sub_diag.
  apply binary_round_aux_canonical, Hb.
Qed.

(** Storing a double into a float32 array yields a float32; so every
    cumulative reward that [+=] writes is one. *)
Lemma astype_float32_is_float32 x : is_float32 (astype_float32 x) = true.
Proof.
  destruct x as [sx|sx| |sx m e]; try reflexivity.
  apply binary_round_valid. lia.
Qed.

Lemma float32_iadd_is_float32 a x : is_float32 (float32_iadd a x) = true.
Proof. apply astype_float32_is_float32. Qed.

(** Storing a float32 into a float32 array does not change it. *)
Lemma astype_float32_id x : is_float32 x = true → astype_float32 x = x.
Proof.
  destruct x as [sx|sx| |sx m e]; try reflexivity.
  intros Hv. apply binary_round_canonical, Hv.
Qed.

(** A float32 widened to a double is finite, with the mantissa shifted to
    53 bits; rounding it back to float32 returns the float32. *)
Lemma float32_widened s m e :
  bounded 24 128 m e = true →
  ∃ d, float64_of_float32 (S754_finite s m e)
       = S754_finite s (Pos.iter xO m d) (e - Zpos d).
Proof.
  unfold bounded, canonical_mantissa, fexp, emin. intros Hb.
  apply andb_prop in Hb as [Hc He]. apply Z.eqb_eq in Hc. apply Z.leb_le in He.
  pose proof (digits2_pos_bounds m) as Hd.
  cbn [float64_of_float32]. unfold binary_round, shl_align, fexp, emin.
  destruct (Z.max (Zpos (digits2_pos m) + e - 53) (3 - 1024 - 53) - e)%Z
    as [|d|d] eqn:Ed; [lia|lia|].
  exists d.
  replace (Z.max (Zpos (digits2_pos m) + e - 53) (3 - 1024 - 53))%Z
    with (e - Zpos d)%Z by lia.
  apply binary_round_aux_canonical.
  unfold bounded, canonical_mantissa, fexp, emin.
  rewrite digits2_pos_iter_xO.
  apply andb_true_intro. split; [apply Z.eqb_eq|apply Z.leb_le]; lia.
Qed.

Lemma float32_round_trip a :
  is_float32 a = true → astype_float32 (float64_of_float32 a) = a.
Proof.
  destruct a as [sa|sa| |s m e]; try reflexivity.
  intros Hv. destruct (float32_widened s m e Hv) as [d ->].
  revert Hv. unfold is_float32, valid_binary, bounded, canonical_mantissa.
  intros Hb. apply andb_prop in Hb as [Hc He]. apply Z.eqb_eq in Hc.
  cbn [astype_float32]. unfold binary_round, shl_align.
  rewrite digits2_pos_iter_xO.
  replace (Zpos (digits2_pos m) + Zpos d + (e - Zpos d))%Z
    with (Zpos (digits2_pos m) + e)%Z by lia.
  rewrite Hc. replace (e - (e - Zpos d))%Z with (Zpos d) by lia.
  unfold binary_round_aux, shr_fexp. cbn [Zdigits2].
  rewrite digits2_pos_iter_xO.
  replace (Zpos (digits2_pos m) + Zpos d + (e - Zpos d))%Z
    with (Zpos (digits2_pos m) + e)%Z by lia.
  rewrite Hc. replace (e - (e - Zpos d))%Z with (Zpos d) by lia.
  cbn [shr shr_record_of_loc]. rewrite iter_pos_shr_1_iter_xO.
  cbn [shr_m loc_of_shr_record round_nearest_even Zdigits2].
  replace (e - Zpos d + Zpos d)%Z with e by lia.
  rewrite Hc, Z.sub_diag. cbn [shr shr_record_of_loc shr_m].
  rewrite He. reflexivity.
Qed.

(** A finite double times zero is a zero; an infinity or nan times zero is
    nan. *)
Lemma float64_mul_zero x :
  is_finite x = true → ∃ b, float64_mul x (S754_zero false) = S754_zero b.
Proof. destruct x; try discriminate; intros _; eexists; reflexivity. Qed.

Lemma float64_mul_zero_nonfinite x :
  is_finite x = false → float64_mul x (S754_zero false) = S754_nan.
Proof. destruct x; try discriminate; reflexivity. Qed.

Lemma same_number_refl x : same_number x x.
Proof. left. reflexivity. Qed.

Lemma same_number_trans x y z : same_number x y → same_number y z → same_number x z.
Proof.
  intros [Hxy|(sx & sy & Hx & Hy)] [Hyz|(sy' & sz & Hy' & Hz)]; subst.
  - left. reflexivity.
  - right. eauto.
  - right. eauto.
  - right. eauto.
Qed.

Lemma same_number_float32 x y :
  same_number x y → is_float32 x = true → is_float32 y = true.
Proof. intros [Hxy|(sx & sy & Hx & Hy)] Hv; subst; [exact Hv|reflexivity]. Qed.

(** Adding a zero to a float32 entry leaves the number it holds. *)
Lemma float32_iadd_zero a b :
  is_float32 a = true → same_number a (float32_iadd a (S754_zero b)).
Proof.
  intros Hv. unfold float32_iadd, float64_add.
  destruct a as [sa|sa| |sa m e].
  - right. exists sa. destruct sa, b; simpl; eauto.
  - left. reflexivity.
  - left. reflexivity.
  - left. pose proof (float32_round_trip _ Hv) as Hrt.
    destruct (float32_widened sa m e Hv) as [d Hw]. rewrite Hw in *.
    cbn [SFadd]. symmetry. exact Hrt.
Qed.

(** Adding nan gives nan. *)
Lemma float32_iadd_nan a : float32_iadd a S754_nan = S754_nan.
Proof.
  unfold float32_iadd, float64_add.
  destruct (float64_of_float32 a); reflexivity.
Qed.

End FloatFacts.

(** ** Broadcasting *)

Section BroadcastFacts.
Context {A B C : Type}.
Implicit Types (f : A → B → C) (xs : list A) (ys : list B) (zs : list C).

(** Where both operands have an entry, the result combines them. *)
Lemma broadcast2_lookup f xs ys zs i x y :
  broadcast2 f xs ys = Ok zs →
  xs !! i = Some x → ys !! i = Some y → zs !! i = Some (f x y).
Proof.
  unfold broadcast2. intros Hb Hx Hy. case_bool_decide as Hlen.
  - injection Hb as <-. rewrite lookup_zip_with, Hx, Hy. reflexivity.
  - destruct xs as [|x0 [|x1 xs']]; [discriminate| |].
    + injection Hb as <-. destruct i; [|discriminate].
      injection Hx as ->. rewrite list_lookup_fmap, Hy. reflexivity.
    + destruct ys as [|y0 [|y1 ys']]; [discriminate| |discriminate].
      injection Hb as <-. destruct i; [|discriminate].
      injection Hx as ->. injection Hy as ->. reflexivity.
Qed.

(** Where the right operand has an entry and the left is not empty, the
    result has an entry that combines it with some entry of the left. *)
Lemma broadcast2_lookup_r f xs ys zs i y :
  broadcast2 f xs ys = Ok zs → xs ≠ [] →
  ys !! i = Some y → ∃ x, zs !! i = Some (f x y).
Proof.
  unfold broadcast2. intros Hb Hne Hy. case_bool_decide as Hlen.
  - injection Hb as <-.
    destruct (lookup_lt_is_Some_2 xs i) as [x Hx].
    { rewrite Hlen. eapply lookup_lt_Some, Hy. }
    exists x. rewrite lookup_zip_with, Hx, Hy. reflexivity.
  - destruct xs as [|x0 [|x1 xs']]; [congruence| |].
    + injection Hb as <-. exists x0. rewrite list_lookup_fmap, Hy. reflexivity.
    + destruct ys as [|y0 [|y1 ys']]; [discriminate| |discriminate].
      injection Hb as <-. destruct i; [|discriminate].
      injection Hy as ->. exists x0. reflexivity.
Qed.

End BroadcastFacts.

Lemma inplace_add_lookup acc xs acc' i s x :
  inplace_add acc xs = Ok acc' →
  acc !! i = Some s → xs !! i = Some x → acc' !! i = Some (float32_iadd s x).
Proof.
  unfold inplace_add. intros Hb Hs Hx. case_bool_decide as Hlen.
  - injection Hb as <-. rewrite lookup_zip_with, Hs, Hx. reflexivity.
  - destruct xs as [|x0 [|x1 xs']]; [discriminate| |discriminate].
    injection Hb as <-. destruct i; [|discriminate].
    injection Hx as ->. rewrite list_lookup_fmap, Hs. reflexivity.
Qed.

Lemma broadcast2_length {A B C} (f : A → B → C) xs ys zs :
  broadcast2 f xs ys = Ok zs →
  xs ≠ [] → length xs ≤ length ys → length zs = length ys.
Proof.
  unfold broadcast2. intros Hb Hne Hle. case_bool_decide as Hlen.
  - injection Hb as <-. rewrite length_zip_with. lia.
  - destruct xs as [|x0 [|x1 xs']]; [congruence| |].
    + injection Hb as <-. apply length_fmap.
    + destruct ys as [|y0 [|y1 ys']]; [discriminate| |discriminate].
      simpl in Hle. lia.
Qed.

Lemma inplace_add_length acc xs acc' :
  inplace_add acc xs = Ok acc' → length acc' = length acc.
Proof.
  unfold inplace_add. intros Hb. case_bool_decide as Hlen.
  - injection Hb as <-. rewrite length_zip_with. lia.
  - destruct xs as [|x0 [|x1 xs']]; [discriminate| |discriminate].
    injection Hb as <-. apply length_fmap.
Qed.

Lemma logical_or_latched d d_prev : d_prev ≠ 0%Z → logical_or d d_prev = 1%Z.
Proof.
  intros Hd. unfold logical_or.
  destruct (Z.eqb_spec d_prev 0); [contradiction|].
  rewrite orb_true_r. reflexivity.
Qed.

Lemma logical_or_done d_prev : logical_or true d_prev = 1%Z.
Proof. reflexivity. Qed.

(** ** One tick of the rollout *)

Section TickFacts.
Context `{RawEnvironment} `{JpegCodec} `{Policy} `{RewardReading}.
Implicit Types (w : world) (v : round_vars).

(** What a returning tick computed. *)
Lemma tick_ok v w w' v' brk :
  tick v w = (w', Ok (v', brk)) →
  ∃ results rew',
    step_all (policy_fn (obs v) (rng v)).1 w = (w', Ok results) ∧
    results ≠ [] ∧
    broadcast2 logical_or ((λ r, r.1.2) <$> results) (done v) = Ok (done v') ∧
    broadcast2 float64_mul ((λ r, np_float64 r.1.1.2) <$> results)
      ((λ d, float64_of_int (1 - d)) <$> done v') = Ok rew' ∧
    inplace_add (rew_sum v) rew' = Ok (rew_sum v') ∧
    brk = np_all (done v').
Proof.
  unfold tick. destruct (policy_fn (obs v) (rng v)) as [acts rng'] eqn:Hp.
  simpl. unfold bind at 1.
  destruct (step_all acts w) as [w1 [results|x]]; [|discriminate].
  unfold bind at 1.
  destruct results as [|r0 results'].
  { discriminate. }
  destruct (stack_batch _ w1) as [w2 [obs'|x]] eqn:Hst; [|discriminate].
  assert (w2 = w1) as ->.
  { revert Hst. unfold stack_batch, bind, lift_result, ret. simpl.
    repeat (match goal with |- context [if ?c then _ else _] => destruct c end;
            try discriminate).
    congruence. }
  unfold bind, lift_result, ret.
  destruct (broadcast2 logical_or _ (done v)) as [done'|x] eqn:Hd; [|discriminate].
  destruct (broadcast2 float64_mul _ _) as [rew'|x] eqn:Hr; [|discriminate].
  destruct (inplace_add (rew_sum v) rew') as [rs'|x] eqn:Ha; [|discriminate].
  intros [= <- <- <-]. simpl.
  exists (r0 :: results'), rew'. auto 10.
Qed.

(** A method run on one slot leaves the other slots alone. *)
Lemma on_slot_other {A} j (m : M wrapper A) w i :
  i ≠ j → envs (on_slot j m w).1 !! i = envs w !! i.
Proof.
  intros Hij. unfold on_slot. destruct (envs w !! j) as [e|]; [|reflexivity].
  destruct (m e) as [e' r]. simpl. apply list_lookup_insert_ne. congruence.
Qed.

Lemma env_step_call_other p w i :
  i ≠ p.1 → envs (env_step_call p w).1 !! i = envs w !! i.
Proof.
  intros Hi. unfold env_step_call, bind, log, modify.
  pose proof (on_slot_other p.1 (step p.2)
                (mk_world (envs w) (trace w ++ [CallStep p.1 p.2])) i Hi) as Ho.
  destruct (on_slot p.1 (step p.2) _) as [w1 [r|x]]; exact Ho.
Qed.

(** The result in position [i] of a sweep over the slots [k, k+1, ...] is
    the result of stepping the wrapper found in slot [k + i] beforehand. *)
Lemma step_sweep_lookup (acts : list Z) k m w w' results i e a :
  for_each env_step_call (zip (seq k m) acts) w = (w', Ok results) →
  envs w !! (k + i) = Some e → acts !! i = Some a → i < m →
  ∃ e' r, step a e = (e', Ok r) ∧ results !! i = Some r.
Proof.
  revert k acts w results i.
  induction m as [|m IH]; intros k acts w results i Hf He Ha Hi; [lia|].
  destruct acts as [|a0 acts]; [discriminate|].
  simpl in Hf. unfold bind at 1 in Hf.
  destruct (env_step_call (k, a0) w) as [w1 [r0|x]] eqn:Hc; [|discriminate].
  unfold bind at 1 in Hf.
  destruct (for_each env_step_call (zip (seq (S k) m) acts) w1)
    as [w2 [rest|x]] eqn:Hrest; [|discriminate].
  injection Hf as <- <-.
  destruct i as [|i].
  - injection Ha as ->. rewrite Nat.add_0_r in He.
    revert Hc. unfold env_step_call, bind, log, modify, on_slot. simpl.
    rewrite He. destruct (step a e) as [e' [r|x]]; [|discriminate].
    intros [= <- <-]. eauto.
  - simpl in Ha. simpl.
    eapply (IH (S k) acts w1 rest i Hrest); [|exact Ha|lia].
    replace (S k + i) with (k + S i) by lia.
    rewrite <- He.
    pose proof (env_step_call_other (k, a0) w (k + S i)) as Ho.
    rewrite Hc in Ho. apply Ho. simpl. lia.
Qed.

Lemma step_all_lookup acts w w' results i e a :
  step_all acts w = (w', Ok results) →
  envs w !! i = Some e → acts !! i = Some a →
  ∃ e' r, step a e = (e', Ok r) ∧ results !! i = Some r.
Proof.
  unfold step_all, bind at 1, get. intros Hf He Ha.
  eapply (step_sweep_lookup acts 0 (length (envs w)) w w' results i e a);
    [exact Hf|exact He|exact Ha|].
  eapply lookup_lt_Some, He.
Qed.

Lemma on_slot_pool_size {A} j (m : M wrapper A) w :
  length (envs (on_slot j m w).1) = length (envs w).
Proof.
  unfold on_slot. destruct (envs w !! j) as [e|]; [|reflexivity].
  destruct (m e) as [e' r]. simpl. apply length_insert.
Qed.

Lemma env_step_call_pool_size p w :
  length (envs (env_step_call p w).1) = length (envs w).
Proof.
  unfold env_step_call, bind, log, modify.
  pose proof (on_slot_pool_size p.1 (step p.2)
                (mk_world (envs w) (trace w ++ [CallStep p.1 p.2]))) as Ho.
  destruct (on_slot p.1 (step p.2) _) as [w1 [r|x]]; exact Ho.
Qed.

(** A sweep that completes returns one result per call and keeps the size
    of the pool. *)
Lemma step_sweep_sizes (ps : list (nat * Z)) w w' results :
  for_each env_step_call ps w = (w', Ok results) →
  length results = length ps ∧ length (envs w') = length (envs w).
Proof.
  revert w results. induction ps as [|p ps IH]; intros w results Hf.
  - injection Hf as <- <-. auto.
  - simpl in Hf. unfold bind at 1 in Hf.
    pose proof (env_step_call_pool_size p w) as Hp.
    destruct (env_step_call p w) as [w1 [r0|x]]; [|discriminate].
    unfold bind at 1 in Hf.
    destruct (for_each env_step_call ps w1) as [w2 [rest|x]] eqn:Hrest;
      [|discriminate].
    injection Hf as <- <-.
    destruct (IH w1 rest Hrest) as [Hl He]. simpl in *. split; congruence.
Qed.

(** Within a round every slot has a done flag and a cumulative reward: a
    tick that completes keeps both arrays at the size of the pool. *)
Lemma tick_keeps_shapes v w w' v' brk :
  tick v w = (w', Ok (v', brk)) →
  length (done v) = length (envs w) →
  length (rew_sum v) = length (envs w) →
  length (envs w') = length (envs w) ∧
  length (done v') = length (envs w) ∧
  length (rew_sum v') = length (envs w).
Proof.
  intros Ht Hd Hs.
  apply tick_ok in Ht as (results & rew' & Hall & Hne & Hdone & Hrew & Hadd & _).
  unfold step_all, bind at 1, get in Hall.
  apply step_sweep_sizes in Hall as [Hlen Hpool].
  rewrite length_zip, length_seq in Hlen.
  assert (Hd' : length (done v') = length (envs w)).
  { rewrite <- Hd. apply (broadcast2_length _ _ _ _ Hdone).
    - destruct results; [congruence|discriminate].
    - rewrite length_fmap. lia. }
  split; [exact Hpool|]. split; [exact Hd'|].
  rewrite (inplace_add_length _ _ _ Hadd). exact Hs.
Qed.

(** What a tick does to the flag and the cumulative reward of a slot whose
    wrapper was stepped. *)
Lemma tick_slot_update v w w' v' brk results i r d_prev s :
  tick v w = (w', Ok (v', brk)) →
  (step_all (policy_fn (obs v) (rng v)).1 w).2 = Ok results →
  results !! i = Some r →
  done v !! i = Some d_prev →
  rew_sum v !! i = Some s →
  done v' !! i = Some (logical_or r.1.2 d_prev) ∧
  rew_sum v' !! i
  = Some (float32_iadd s (masked r.1.1.2 (logical_or r.1.2 d_prev))).
Proof.
  intros Ht Hres Hr Hd Hs.
  apply tick_ok in Ht as (results' & rew' & Hall & _ & Hdone & Hrew & Hadd & _).
  rewrite Hall in Hres. injection Hres as ->.
  assert (Hd' : done v' !! i = Some (logical_or r.1.2 d_prev)).
  { apply (broadcast2_lookup _ _ _ _ _ _ _ Hdone); [|exact Hd].
    rewrite list_lookup_fmap, Hr. reflexivity. }
  split; [exact Hd'|].
  apply (inplace_add_lookup _ _ _ _ _ _ Hadd Hs).
  apply (broadcast2_lookup _ _ _ _ _ _ _ Hrew).
  - rewrite list_lookup_fmap, Hr. reflexivity.
  - rewrite list_lookup_fmap, Hd'. reflexivity.
Qed.

End TickFacts.

(** ** Done latching and reward masking *)

Section LatchClaims.
Context `{RawEnvironment} `{JpegCodec} `{Policy} `{RewardReading}.
Implicit Types (w : world) (v : round_vars).

(** One tick keeps a latched slot latched; its cumulative reward keeps the
    number it holds or becomes nan. *)
Lemma tick_keeps_latched v w w' v' brk i d s :
  tick v w = (w', Ok (v', brk)) →
  done v !! i = Some d → d ≠ 0%Z →
  rew_sum v !! i = Some s → is_float32 s = true →
  done v' !! i = Some 1%Z ∧
  ∃ s', rew_sum v' !! i = Some s' ∧ is_float32 s' = true ∧
        (same_number s s' ∨ s' = S754_nan).
Proof.
  intros Ht Hd Hnz Hs Hv.
  apply tick_ok in Ht as (results & rew' & _ & Hne & Hdone & Hrew & Hsum & _).
  assert (Hd' : done v' !! i = Some 1%Z).
  { destruct (broadcast2_lookup_r _ _ _ _ i d Hdone) as [x Hx].
    - destruct results; [congruence|discriminate].
    - exact Hd.
    - rewrite Hx, logical_or_latched by exact Hnz. reflexivity. }
  split; [exact Hd'|].
  destruct (broadcast2_lookup_r _ _ _ _ i (float64_of_int (1 - 1)) Hrew) as [x Hx].
  { destruct results; [congruence|discriminate]. }
  { rewrite list_lookup_fmap, Hd'. reflexivity. }
  pose proof (inplace_add_lookup _ _ _ _ _ _ Hsum Hs Hx) as Hs'.
  change (float64_of_int (1 - 1)) with (S754_zero false) in Hs'.
  eexists. split; [exact Hs'|].
  destruct (is_finite x) eqn:Hfin.
  - destruct (float64_mul_zero x Hfin) as [b ->].
    pose proof (float32_iadd_zero s b Hv) as Hsame.
    split; [|left; exact Hsame].
    apply (same_number_float32 _ _ Hsame Hv).
  - rewrite (float64_mul_zero_nonfinite x Hfin), float32_iadd_nan.
    split; [reflexivity|right; reflexivity].
Qed.

(** On a tick in which the environment of a latched slot reports a finite
    reward, the slot's cumulative reward keeps the number it holds. *)
Lemma tick_keeps_latched_finite v w w' v' brk results i r d s :
  tick v w = (w', Ok (v', brk)) →
  (step_all (policy_fn (obs v) (rng v)).1 w).2 = Ok results →
  results !! i = Some r →
  done v !! i = Some d → d ≠ 0%Z →
  rew_sum v !! i = Some s → is_float32 s = true →
  is_finite (np_float64 r.1.1.2) = true →
  ∃ s', rew_sum v' !! i = Some s' ∧ same_number s s'.
Proof.
  intros Ht Hres Hr Hd Hnz Hs Hv Hfin.
  destruct (tick_slot_update v w w' v' brk results i r d s Ht Hres Hr Hd Hs)
    as [_ Hs'].
  rewrite logical_or_latched in Hs' by exact Hnz.
  unfold masked in Hs'. change (float64_of_int (1 - 1)) with (S754_zero false) in Hs'.
  destruct (float64_mul_zero _ Hfin) as [b Hb]. rewrite Hb in Hs'.
  eexists. split; [exact Hs'|]. apply float32_iadd_zero, Hv.
Qed.

(** The same over the rest of the tick loop, for a slot that is stepped on
    every tick and whose environment reports finite rewards only. *)
Lemma tick_loop_keeps_latched n v w w' v' i d s outcomes :
  tick_loop n v w = (w', Ok v') →
  slot_outcomes i n v w = Some outcomes →
  Forall (λ o, is_finite (np_float64 o.1) = true) outcomes →
  done v !! i = Some d → d ≠ 0%Z →
  rew_sum v !! i = Some s → is_float32 s = true →
  ∃ s', rew_sum v' !! i = Some s' ∧ same_number s s'.
Proof.
  revert v w d s outcomes.
  induction n as [|n IH]; intros v w d s outcomes Hl Ho Hfin Hd Hnz Hs Hv.
  - injection Hl as <- <-. exists s. split; [exact Hs|apply same_number_refl].
  - simpl in Hl, Ho. unfold bind in Hl.
    destruct ((step_all (policy_fn (obs v) (rng v)).1 w).2) as [results|x] eqn:Hres;
      [|discriminate].
    destruct (tick v w) as [w1 [[v1 brk]|x]] eqn:Ht; [|discriminate].
    destruct (results !! i) as [r|] eqn:Hr; [|discriminate].
    destruct (tick_keeps_latched v w w1 v1 brk i d s Ht Hd Hnz Hs Hv) as [Hd1 _].
    assert (Hr1 : is_finite (np_float64 r.1.1.2) = true).
    { destruct brk.
      - injection Ho as <-. apply Forall_cons in Hfin as [Hf _]. exact Hf.
      - destruct (slot_outcomes i n v1 w1); [|discriminate].
        injection Ho as <-. apply Forall_cons in Hfin as [Hf _]. exact Hf. }
    destruct (tick_keeps_latched_finite v w w1 v1 brk results i r d s
                Ht Hres Hr Hd Hnz Hs Hv Hr1) as (s1 & Hs1 & Hsame1).
    simpl in Hl. destruct brk.
    + injection Hl as <- <-. exists s1. split; [exact Hs1|exact Hsame1].
    + destruct (slot_outcomes i n v1 w1) as [rest|] eqn:Hrest; [|discriminate].
      injection Ho as <-. apply Forall_cons in Hfin as [_ Hfin].
      destruct (IH v1 w1 1%Z s1 rest Hl Hrest Hfin Hd1) as (s' & Hs' & Hsame');
        [lia|exact Hs1|apply (same_number_float32 _ _ Hsame1 Hv)|].
      exists s'. split; [exact Hs'|].
      apply (same_number_trans _ _ _ Hsame1 Hsame').
Qed.

(** Once a cumulative reward is nan it stays nan. *)
Lemma tick_loop_nan_stays n v w w' v' i d outcomes :
  tick_loop n v w = (w', Ok v') →
  slot_outcomes i n v w = Some outcomes →
  done v !! i = Some d →
  rew_sum v !! i = Some S754_nan →
  rew_sum v' !! i = Some S754_nan.
Proof.
  revert v w d outcomes.
  induction n as [|n IH]; intros v w d outcomes Hl Ho Hd Hs.
  - injection Hl as <- <-. exact Hs.
  - simpl in Hl, Ho. unfold bind in Hl.
    destruct ((step_all (policy_fn (obs v) (rng v)).1 w).2) as [results|x] eqn:Hres;
      [|discriminate].
    destruct (tick v w) as [w1 [[v1 brk]|x]] eqn:Ht; [|discriminate].
    destruct (results !! i) as [r|] eqn:Hr; [|discriminate].
    destruct (tick_slot_update v w w1 v1 brk results i r d S754_nan
                Ht Hres Hr Hd Hs) as [Hd1 Hs1].
    simpl in Hl. destruct brk.
    + injection Hl as <- <-. exact Hs1.
    + destruct (slot_outcomes i n v1 w1) as [rest|] eqn:Hrest; [|discriminate].
      apply (IH v1 w1 _ rest Hl Hrest Hd1 Hs1).
Qed.

(** A reward that is not finite, reported to a latched slot on any tick of
    the rest of the loop, leaves the slot's cumulative reward nan. *)
Lemma tick_loop_latched_nonfinite n v w w' v' i d s outcomes :
  tick_loop n v w = (w', Ok v') →
  slot_outcomes i n v w = Some outcomes →
  forallb (λ o, is_finite (np_float64 o.1)) outcomes = false →
  done v !! i = Some d → d ≠ 0%Z →
  rew_sum v !! i = Some s →
  rew_sum v' !! i = Some S754_nan.
Proof.
  revert v w d s outcomes.
  induction n as [|n IH]; intros v w d s outcomes Hl Ho Hfin Hd Hnz Hs.
  - injection Ho as <-. discriminate.
  - simpl in Hl, Ho. unfold bind in Hl.
    destruct ((step_all (policy_fn (obs v) (rng v)).1 w).2) as [results|x] eqn:Hres;
      [|discriminate].
    destruct (tick v w) as [w1 [[v1 brk]|x]] eqn:Ht; [|discriminate].
    destruct (results !! i) as [r|] eqn:Hr; [|discriminate].
    destruct (tick_slot_update v w w1 v1 brk results i r d s Ht Hres Hr Hd Hs)
      as [Hd1 Hs1].
    rewrite logical_or_latched in Hd1, Hs1 by exact Hnz.
    unfold masked in Hs1.
    change (float64_of_int (1 - 1)) with (S754_zero false) in Hs1.
    simpl in Hl.
    assert (Hout : ∃ rest, outcomes = (r.1.1.2, r.1.2) :: rest ∧
              (brk = true → rest = []) ∧
              (brk = false → slot_outcomes i n v1 w1 = Some rest)).
    { destruct brk.
      - injection Ho as <-. eexists. split; [reflexivity|]. split; [auto|discriminate].
      - destruct (slot_outcomes i n v1 w1) as [rest|]; [|discriminate].
        injection Ho as <-. eexists. split; [reflexivity|]. split; [discriminate|auto]. }
    destruct Hout as (rest & -> & Hstop & Hrest). cbn [forallb fst] in Hfin.
    destruct (is_finite (np_float64 r.1.1.2)) eqn:Hr1.
    + (* a finite reward on this tick: the one that is not comes later *)
      cbn [andb] in Hfin. destruct brk.
      * rewrite (Hstop eq_refl) in Hfin. discriminate.
      * apply (IH v1 w1 1%Z _ rest Hl (Hrest eq_refl) Hfin Hd1 ltac:(lia) Hs1).
    + rewrite (float64_mul_zero_nonfinite _ Hr1), float32_iadd_nan in Hs1.
      destruct brk.
      * injection Hl as <- <-. exact Hs1.
      * apply (tick_loop_nan_stays n v1 w1 w' v' i 1%Z rest Hl (Hrest eq_refl) Hd1 Hs1).
Qed.

(** C1.  In the tick loop of a round, a slot whose done flag is set keeps it
    set after any number of further ticks, whatever the environments report
    in those ticks.  Its cumulative reward, a float32, then either holds the
    number it held or is nan.  For a slot stepped on every one of those
    ticks: it holds the number it held when the rewards the slot's
    environment reported in them are all finite, and it is nan when one of
    them is an infinity or nan. *)
Theorem done_latch_is_monotone num_steps v w w' v' i d s :
  tick_loop num_steps v w = (w', Ok v') →
  done v !! i = Some d → d ≠ 0%Z →
  rew_sum v !! i = Some s → is_float32 s = true →
  (∃ d', done v' !! i = Some d' ∧ d' ≠ 0%Z) ∧
  (∃ s', rew_sum v' !! i = Some s' ∧ (same_number s s' ∨ s' = S754_nan)) ∧
  (∀ outcomes,
     slot_outcomes i num_steps v w = Some outcomes →
     if forallb (λ o, is_finite (np_float64 o.1)) outcomes
     then ∃ s', rew_sum v' !! i = Some s' ∧ same_number s s'
     else rew_sum v' !! i = Some S754_nan).
Proof.
  intros Hl Hd Hnz Hs Hv.
  split; [|split].
  - revert v w d s Hl Hd Hnz Hs Hv.
    induction num_steps as [|n IH]; intros v w d s Hl Hd Hnz Hs Hv.
    + injection Hl as <- <-. eauto.
    + simpl in Hl. unfold bind in Hl.
      destruct (tick v w) as [w1 [[v1 brk]|x]] eqn:Ht; [|discriminate].
      destruct (tick_keeps_latched v w w1 v1 brk i d s Ht Hd Hnz Hs Hv)
        as (Hd1 & s1 & Hs1 & Hv1 & _).
      simpl in Hl. destruct brk.
      * injection Hl as <- <-. exists 1%Z. split; [exact Hd1|lia].
      * apply (IH v1 w1 1%Z s1 Hl Hd1); [lia|exact Hs1|exact Hv1].
  - revert v w d s Hl Hd Hnz Hs Hv.
    induction num_steps as [|n IH]; intros v w d s Hl Hd Hnz Hs Hv.
    + injection Hl as <- <-. exists s. split; [exact Hs|].
      left. apply same_number_refl.
    + simpl in Hl. unfold bind in Hl.
      destruct (tick v w) as [w1 [[v1 brk]|x]] eqn:Ht; [|discriminate].
      destruct (tick_keeps_latched v w w1 v1 brk i d s Ht Hd Hnz Hs Hv)
        as (Hd1 & s1 & Hs1 & Hv1 & Hkeep1).
      simpl in Hl. destruct brk.
      * injection Hl as <- <-. exists s1. split; [exact Hs1|exact Hkeep1].
      * destruct (IH v1 w1 1%Z s1 Hl Hd1) as (s' & Hs' & Hkeep');
          [lia|exact Hs1|exact Hv1|].
        exists s'. split; [exact Hs'|].
        destruct Hkeep' as [Hsame'|Hnan']; [|right; exact Hnan'].
        destruct Hkeep1 as [Hsame1|Hnan1].
        -- left. apply (same_number_trans _ _ _ Hsame1 Hsame').
        -- right. subst s1.
           destruct Hsame' as [<-|(sx & sy & Hx & _)]; [reflexivity|discriminate].
  - intros outcomes Ho.
    destruct (forallb _ outcomes) eqn:Hfin.
    + apply (tick_loop_keeps_latched num_steps v w w' v' i d s outcomes
               Hl Ho); [|exact Hd|exact Hnz|exact Hs|exact Hv].
      apply Forall_forall. intros o Ho'.
      rewrite forallb_forall in Hfin. apply Hfin.
      apply list_elem_of_In. exact Ho'.
    + apply (tick_loop_latched_nonfinite num_steps v w w' v' i d s outcomes
               Hl Ho Hfin Hd Hnz Hs).
Qed.

(** C2.  On a tick that completes, for the slot [i] whose wrapper [e] was
    stepped with the policy's action [a] and returned reward [r] and done
    flag [d]: the slot's new done flag is the OR of [d] and its previous
    flag; what the slot is credited is the product, in double precision, of
    the reward and [1 - done_new], added in double precision to the
    cumulative reward, a float32 widened to a double, and rounded to float32.  When [d] is true and the reward is
    finite, the cumulative reward keeps the number it held: the reward of
    this very tick is dropped.  When [d] is true and the reward is an
    infinity or nan, the cumulative reward becomes nan. *)
Theorem tick_credits_masked_reward v w w' v' brk i e a e' h r d info d_prev s :
  tick v w = (w', Ok (v', brk)) →
  envs w !! i = Some e →
  (policy_fn (obs v) (rng v)).1 !! i = Some a →
  step a e = (e', Ok (h, r, d, info)) →
  done v !! i = Some d_prev →
  rew_sum v !! i = Some s →
  let done_new := logical_or d d_prev in
  let credit := float64_mul (np_float64 r) (float64_of_int (1 - done_new)) in
  done v' !! i = Some done_new ∧
  rew_sum v' !! i
  = Some (astype_float32 (float64_add (float64_of_float32 s) credit)) ∧
  (d = true → is_float32 s = true →
   if is_finite (np_float64 r)
   then ∃ s', rew_sum v' !! i = Some s' ∧ same_number s s'
   else rew_sum v' !! i = Some S754_nan).
Proof.
  intros Ht He Ha Hs Hd Hsum done_new credit.
  apply tick_ok in Ht as (results & rew' & Hall & _ & Hdone & Hrew & Hadd & _).
  destruct (step_all_lookup _ _ _ _ i e a Hall He Ha) as (e'' & r' & Hs' & Hr').
  rewrite Hs in Hs'. injection Hs' as <- <-.
  assert (Hd' : done v' !! i = Some done_new).
  { apply (broadcast2_lookup _ _ _ _ _ _ _ Hdone); [|exact Hd].
    rewrite list_lookup_fmap, Hr'. reflexivity. }
  assert (Hr1 : rew' !! i = Some credit).
  { apply (broadcast2_lookup _ _ _ _ _ _ _ Hrew).
    - rewrite list_lookup_fmap, Hr'. reflexivity.
    - rewrite list_lookup_fmap, Hd'. reflexivity. }
  pose proof (inplace_add_lookup _ _ _ _ _ _ Hadd Hsum Hr1) as Hfinal.
  split; [exact Hd'|]. split; [exact Hfinal|].
  intros -> Hv. rewrite Hfinal. unfold credit, done_new.
  rewrite logical_or_done. change (float64_of_int (1 - 1)) with (S754_zero false).
  destruct (is_finite (np_float64 r)) eqn:Hfin.
  - destruct (float64_mul_zero _ Hfin) as [b ->].
    eexists. split; [reflexivity|]. apply float32_iadd_zero, Hv.
  - rewrite (float64_mul_zero_nonfinite _ Hfin).
    f_equal. apply float32_iadd_nan.
Qed.

(** With no environment at all the call fails earlier, on [envs[0]]. *)
Lemma batch_rollout_empty_pool num_episodes randint w :
  envs w = [] → _batch_rollout num_episodes randint w = (w, Raise IndexError).
Proof. intros E. unfold _batch_rollout, bind, get. rewrite E. reflexivity. Qed.

(** C8.  When [num_episodes] is not a multiple of the number of environments,
    [_batch_rollout] raises and leaves the world as it found it: no reset or
    step call is logged and no wrapper has changed.  The exception is the
    failed assertion of line 325; only for a pool with no environment at all
    is it the [IndexError] of [envs[0]] one line earlier. *)
Theorem batch_rollout_rejects_indivisible num_episodes randint w :
  ¬ (Z.of_nat (length (envs w)) | num_episodes)%Z →
  _batch_rollout num_episodes randint w
  = (w, Raise (match envs w with [] => IndexError | _ => AssertionError end)).
Proof.
  intros Hdiv. destruct (envs w) as [|e0 rest] eqn:E.
  - apply batch_rollout_empty_pool, E.
  - unfold _batch_rollout, bind, get. rewrite E.
    change ((e0 :: rest) !! 0) with (Some e0).
    destruct (Z.eqb_spec (num_episodes mod Z.of_nat (length (e0 :: rest))) 0)
      as [Hz|_]; [|reflexivity].
    exfalso. apply Hdiv. apply Z.mod_divide; [|exact Hz].
    change (length (e0 :: rest)) with (S (length rest)). lia.
Qed.

End LatchClaims.

(** Slot 0 of the demo pool latches on the second tick with a cumulative
    reward of 1; two further ticks, in which its environment reports rewards
    4 and 2, leave its flag set and its cumulative reward at 1. *)
Lemma done_latch_is_monotone_witness :
  let r := scripted_tick_loop 2 demo_vars demo_world in
  let v := value_or r.2 demo_vars in
  let r' := scripted_tick_loop 2 v r.1 in
  let v' := value_or r'.2 v in
  (∃ d', done v' !! 0 = Some d' ∧ d' ≠ 0%Z) ∧
  (∃ s', rew_sum v' !! 0 = Some s' ∧ same_number (float32_of_int 1) s').
Proof.
  intros r v r' v'.
  unshelve refine
    (let H := @done_latch_is_monotone scripted_env identity_codec
                constant_policy scripted_reading
                2 v r.1 r'.1 v' 0 1%Z (float32_of_int 1) _ _ _ _ _ in
     conj (proj1 H) (proj2 (proj2 H) [(4, false); (2, false)]%Z _));
    try (vm_compute; reflexivity).
  discriminate.
Defined.

(** C1, as stated, fails for a reward that is not finite.  Slot 0 of this
    pool latches on the second tick with a cumulative reward of 1.  On the
    third tick its environment reports a reward of infinity: the flag stays
    set, the masked reward is infinity times 0, which is nan, and the
    cumulative reward is nan from then on. *)
Lemma latched_sum_is_lost_to_infinite_reward :
  let r := scripted_tick_loop 2 demo_vars overflow_world in
  let v := value_or r.2 demo_vars in
  let r' := scripted_tick v r.1 in
  let v' := (value_or r'.2 (v, false)).1 in
  @np_float64 scripted_reading inf_reward = S754_infinity false ∧
  r.2 = Ok v ∧ r'.2 = Ok (v', false) ∧
  done v !! 0 = Some 1%Z ∧ rew_sum v !! 0 = Some (float32_of_int 1) ∧
  done v' !! 0 = Some 1%Z ∧ rew_sum v' !! 0 = Some S754_nan ∧
  rew_sum v' !! 0 ≠ rew_sum v !! 0.
Proof.
  intros r v r' v'. vm_compute. repeat split. discriminate.
Qed.

(** The tick on which slot 0 of the demo pool terminates: its environment
    returns reward 5 together with done = true; the flag becomes 1 and the
    cumulative reward stays at 1. *)
Lemma tick_credits_masked_reward_witness :
  let r := scripted_tick_loop 1 demo_vars demo_world in
  let v := value_or r.2 demo_vars in
  let r' := scripted_tick v r.1 in
  let v' := (value_or r'.2 (v, false)).1 in
  let done_new := logical_or true 0%Z in
  let credit := float64_mul (float64_of_int 5) (float64_of_int (1 - done_new)) in
  done v' !! 0 = Some done_new ∧
  rew_sum v' !! 0
  = Some (astype_float32
            (float64_add (float64_of_float32 (float32_of_int 1)) credit)) ∧
  ∃ s', rew_sum v' !! 0 = Some s' ∧ same_number (float32_of_int 1) s'.
Proof.
  intros r v r' v' done_new credit.
  pose (e := nth 0 (envs r.1) (scripted_wrapper 2 [])).
  unshelve refine
    (let H := @tick_credits_masked_reward scripted_env identity_codec
                constant_policy scripted_reading
                v r.1 r'.1 v' false 0 e 3%Z (scripted_step 3%Z e).1
                (mk_history [frame 3; frame 3] [3; 0]%Z [5; 0]%Z)
                5%Z true tt 0%Z (float32_of_int 1) _ _ _ _ _ _ in
     conj (proj1 H)
       (conj (proj1 (proj2 H)) (proj2 (proj2 H) eq_refl _)));
    vm_compute; reflexivity.
Defined.

(** C2, as stated, fails for a reward that is not finite.  Slot 0 of this
    pool holds a cumulative reward of 1 when its environment reports a
    reward of infinity together with done = true: the new flag is 1, the
    credited reward is infinity times 0, which is nan and not zero, and the
    cumulative reward becomes nan, so the reward of the terminal tick is not
    discarded. *)
Lemma terminal_infinite_reward_is_not_discarded :
  let r := scripted_tick_loop 1 demo_vars terminal_overflow_world in
  let v := value_or r.2 demo_vars in
  let r' := scripted_tick v r.1 in
  let v' := (value_or r'.2 (v, true)).1 in
  @np_float64 scripted_reading inf_reward = S754_infinity false ∧
  r.2 = Ok v ∧ r'.2 = Ok (v', false) ∧
  done v !! 0 = Some 0%Z ∧ rew_sum v !! 0 = Some (float32_of_int 1) ∧
  done v' !! 0 = Some (logical_or true 0%Z) ∧
  float64_mul (S754_infinity false) (float64_of_int (1 - logical_or true 0%Z))
  = S754_nan ∧
  rew_sum v' !! 0 = Some S754_nan ∧
  rew_sum v' !! 0 ≠ rew_sum v !! 0.
Proof.
  intros r v r' v'. vm_compute. repeat split. discriminate.
Qed.

(** Three episodes on the two-slot demo pool. *)
Lemma batch_rollout_rejects_indivisible_witness :
  let w := scripted_pool 2 demo_scripts in
  scripted_rollout 3%Z (λ k, Z.of_nat k) w = (w, Raise AssertionError).
Proof.
  intros w.
  refine (@batch_rollout_rejects_indivisible scripted_env identity_codec
            constant_policy scripted_reading 3%Z (λ k, Z.of_nat k) w _).
  intros [k Hk]. change (3 = k * 2)%Z in Hk. lia.
Defined.

(** Two episodes on the demo pool run one round of five ticks: slot 0 is
    credited its first reward only, slot 1 all five. *)
Example batch_rollout_demo :
  (scripted_rollout 2%Z (λ k, Z.of_nat k) (scripted_pool 2 demo_scripts)).2
  = Ok (float32_of_int <$> [1; 5]%Z).
Proof. vm_compute. reflexivity. Qed.

(** ** The metrics of [1, 2, 3, 4, 100] *)

Section MetricsClaims.
Import Metrics.

Lemma example_variance :
  ∃ v, np_var [1; 2; 3; 4; 100]%Q = Some v ∧ (v == 1522)%Q.
Proof. eexists. split; [reflexivity|]. vm_compute. reflexivity. Qed.

Lemma example_std :
  ∃ s, np_std [1; 2; 3; 4; 100]%Q = Some s ∧ s = sqrt 1522.
Proof.
  destruct example_variance as (v & Hv & Hq).
  exists (sqrt (Q2R v)). unfold np_std. rewrite Hv. split; [reflexivity|].
  f_equal. rewrite (Qeq_eqR _ _ Hq). unfold Q2R. simpl. lra.
Qed.

Lemma sqrt_1522_bounds : (3901 / 100 < sqrt 1522 < 3902 / 100)%R.
Proof.
  split.
  - rewrite <- (sqrt_square (3901 / 100)) by lra.
    apply sqrt_lt_1; lra.
  - rewrite <- (sqrt_square (3902 / 100)) by lra.
    apply sqrt_lt_1; lra.
Qed.

(** C9 (amended).  For the input [1, 2, 3, 4, 100] the mean is 22, the
    median is 3, the 25%-per-tail trimmed mean is 3, and the population
    standard deviation is the square root of 1522, which lies strictly
    between 39.01 and 39.02. *)
Theorem metrics_of_example :
  let m := print_metrics [1; 2; 3; 4; 100]%Q in
  (∃ x, mean m = Some x ∧ (x == 22)%Q) ∧
  (∃ x, median m = Some x ∧ (x == 3)%Q) ∧
  (∃ x, iqm m = Ok (Some x) ∧ (x == 3)%Q) ∧
  (∃ s, std m = Some s ∧ (s * s = 1522)%R ∧ (3901 / 100 < s < 3902 / 100)%R).
Proof.
  intros m. repeat split.
  - eexists. split; [reflexivity|]. vm_compute. reflexivity.
  - eexists. split; [reflexivity|]. vm_compute. reflexivity.
  - eexists. split; [reflexivity|]. vm_compute. reflexivity.
  - destruct example_std as (s & Hs & ->). exists (sqrt 1522).
    split; [exact Hs|]. split; [apply sqrt_sqrt; lra|apply sqrt_1522_bounds].
Qed.

(** C9, as stated, fails on the standard deviation: it is not within 0.25
    of 38.72 (it is above 39). *)
Lemma example_std_is_not_38_72 :
  ¬ (∃ s, std (print_metrics [1; 2; 3; 4; 100]%Q) = Some s ∧
          (Rabs (s - 3872 / 100) <= 1 / 4)%R).
Proof.
  intros (s & Hs & Habs).
  destruct example_std as (s' & Hs' & ->).
  change (std (print_metrics [1; 2; 3; 4; 100]%Q))
    with (np_std [1; 2; 3; 4; 100]%Q) in Hs.
  rewrite Hs' in Hs. injection Hs as <-.
  pose proof sqrt_1522_bounds as [Hlo _].
  unfold Rabs in Habs. destruct (Rcase_abs _); lra.
Qed.

End MetricsClaims.

(** ** The window as a record of the episode *)

Section WindowHistory.
Context `{RawEnvironment} `{JpegCodec}.
Implicit Types (w : wrapper) (h : history).

Lemma keep_last_snoc {A} n (l : list A) x :
  1 ≤ n → keep_last n (l ++ [x]) = keep_last (n - 1) l ++ [x].
Proof.
  intros Hn. unfold keep_last. rewrite length_app. simpl.
  rewrite drop_app_le by lia. f_equal. f_equal. lia.
Qed.

Lemma set_last_keep_last {A} n (l : list A) y a :
  1 ≤ n → set_last (keep_last n (l ++ [y])) a = Ok (keep_last n (l ++ [a])).
Proof.
  intros Hn. rewrite !keep_last_snoc by exact Hn.
  set (front := keep_last (n - 1) l).
  unfold set_last. destruct (front ++ [y]) eqn:E.
  { destruct front; discriminate. }
  rewrite <- E. rewrite length_app. simpl.
  replace (length front + 1 - 1) with (length front + 0) by lia.
  rewrite insert_app_r. reflexivity.
Qed.

(** One returning step extends the three recorded sequences: the action
    and the reward replace the placeholders and a new placeholder follows;
    the new frame follows the old ones. *)
Lemma step_extends_history action w w' h rew done info (la lr : list Z) lo :
  1 ≤ num_stack_frames w →
  act_stack w = keep_last (num_stack_frames w) (la ++ [0%Z]) →
  rew_stack w = keep_last (num_stack_frames w) (lr ++ [0%Z]) →
  obs_stack w = keep_last (num_stack_frames w) lo →
  step action w = (w', Ok (h, rew, done, info)) →
  num_stack_frames w' = num_stack_frames w ∧
  done_stack w' = done_stack w ∧
  act_stack w' = keep_last (num_stack_frames w) ((la ++ [action]) ++ [0%Z]) ∧
  rew_stack w' = keep_last (num_stack_frames w) ((lr ++ [rew]) ++ [0%Z]) ∧
  ∃ x, last (observations h) = Some x ∧
       obs_stack w' = keep_last (num_stack_frames w) (lo ++ [x]).
Proof.
  intros Hn Ha Hr Ho Hs.
  apply step_ok in Hs
    as (e & obs & acts & rews & _ & Hsa & Hsr & -> & Hoh & _).
  rewrite Ha, set_last_keep_last in Hsa by exact Hn. injection Hsa as <-.
  rewrite Hr, set_last_keep_last in Hsr by exact Hn. injection Hsr as <-.
  unfold step_window in *. simpl in *.
  rewrite !deque_append_keep_last, !keep_last_app.
  repeat split.
  exists (if jpeg_obs w then _process_jpeg obs else obs).
  rewrite Hoh, ?deque_append_keep_last, Ho, !keep_last_app.
  split; [|reflexivity].
  rewrite keep_last_snoc by exact Hn. apply last_snoc.
Qed.

Lemma steps_extend_history (acts : list Z) w w' rs (la lr : list Z) lo :
  1 ≤ num_stack_frames w →
  act_stack w = keep_last (num_stack_frames w) (la ++ [0%Z]) →
  rew_stack w = keep_last (num_stack_frames w) (lr ++ [0%Z]) →
  obs_stack w = keep_last (num_stack_frames w) lo →
  for_each step acts w = (w', Ok rs) →
  length rs = length acts ∧
  length (returned_frames rs) = length acts ∧
  done_stack w' = done_stack w ∧
  act_stack w' = keep_last (num_stack_frames w) ((la ++ acts) ++ [0%Z]) ∧
  rew_stack w' =
    keep_last (num_stack_frames w) ((lr ++ ((λ r, r.1.1.2) <$> rs)) ++ [0%Z]) ∧
  obs_stack w' = keep_last (num_stack_frames w) (lo ++ returned_frames rs).
Proof.
  revert w rs la lr lo.
  induction acts as [|a acts IH]; intros w rs la lr lo Hn Ha Hr Ho Hf.
  - injection Hf as <- <-. simpl. rewrite !app_nil_r. auto 10.
  - simpl in Hf. unfold bind at 1 in Hf.
    destruct (step a w) as [w1 [[[[h rew] done] info]|x]] eqn:Hs; [|discriminate].
    unfold bind at 1 in Hf.
    destruct (for_each step acts w1) as [w2 [rest|x]] eqn:Hrest; [|discriminate].
    injection Hf as <- <-.
    destruct (step_extends_history a w w1 h rew done info la lr lo Hn Ha Hr Ho Hs)
      as (Hcap & Hd & Ha1 & Hr1 & x & Hx & Ho1).
    rewrite <- Hcap in Ha1, Hr1, Ho1.
    destruct (IH w1 rest (la ++ [a]) (lr ++ [rew]) (lo ++ [x])
                ltac:(lia) Ha1 Hr1 Ho1 Hrest)
      as (Hl & Hlf & Hd2 & Ha2 & Hr2 & Ho2).
    rewrite Hcap in Ha2, Hr2, Ho2.
    unfold returned_frames in *. simpl. rewrite Hx. simpl.
    rewrite <- !app_assoc in *. simpl in *.
    split; [lia|]. split; [f_equal; exact Hlf|]. split; [congruence|].
    split; [exact Ha2|]. split; [exact Hr2|exact Ho2].
Qed.

End WindowHistory.

Section WindowHistoryTheorems.
Context `{RawEnvironment} `{JpegCodec}.
Implicit Types (w : wrapper) (h : history).

(** X1.  After a reset and any run of returning steps, the action deque
    holds the last N entries of: N-1 zeros, the actions taken in order, and
    the placeholder 0; the reward deque holds the last N entries of: N-1
    zeros, the rewards those steps returned in order, and the placeholder 0.
    Action and reward of one step sit at the same position. *)
Theorem window_records_actions_and_rewards w0 kwargs w1 h1 (acts : list Z) w' rs :
  1 ≤ num_stack_frames w0 →
  reset kwargs w0 = (w1, Ok h1) →
  for_each step acts w1 = (w', Ok rs) →
  let n := num_stack_frames w0 in
  length rs = length acts ∧
  act_stack w' = keep_last n (replicate (n - 1) 0%Z ++ acts ++ [0%Z]) ∧
  rew_stack w' =
    keep_last n (replicate (n - 1) 0%Z ++ ((λ r, r.1.1.2) <$> rs) ++ [0%Z]).
Proof.
  intros Hn Hr Hf n.
  apply reset_ok in Hr as (e & raw & _ & -> & _).
  set (x0 := if jpeg_obs w0 then _process_jpeg raw else raw) in *.
  destruct (reset_window_stacks e x0 w0 Hn) as (Ho & Ha & Hw & _).
  fold n in Ho, Ha, Hw.
  destruct (steps_extend_history acts (reset_window e x0 w0) w' rs
              (replicate (n - 1) 0%Z) (replicate (n - 1) 0%Z)
              (replicate (n - 1) (zeros_like x0) ++ [x0]))
    as (Hl & _ & _ & Ha' & Hr' & _); try exact Hf;
    change (num_stack_frames (reset_window e x0 w0)) with n in *.
  - exact Hn.
  - rewrite Ha. symmetry. apply keep_last_fits.
    rewrite length_app, length_replicate. simpl. lia.
  - rewrite Hw. symmetry. apply keep_last_fits.
    rewrite length_app, length_replicate. simpl. lia.
  - rewrite Ho. symmetry. apply keep_last_fits.
    rewrite length_app, length_replicate. simpl. lia.
  - rewrite <- !app_assoc in Ha', Hr'. auto.
Qed.

(** X2.  After a reset and any run of returning steps, the observation
    deque holds the last N entries of: N-1 zero frames, the reset frame, and
    the frames the steps returned in order (one per step); the terminal-flag
    deque is still the one the reset left, N-1 ones and a zero. *)
Theorem window_records_frames w0 kwargs w1 h1 e raw (acts : list Z) w' rs :
  1 ≤ num_stack_frames w0 →
  reset kwargs w0 = (w1, Ok h1) →
  env_reset (env w0) kwargs = (e, Ok raw) →
  for_each step acts w1 = (w', Ok rs) →
  let n := num_stack_frames w0 in
  let x0 := if jpeg_obs w0 then _process_jpeg raw else raw in
  length (returned_frames rs) = length acts ∧
  obs_stack w' =
    keep_last n (replicate (n - 1) (zeros_like x0) ++ x0 :: returned_frames rs) ∧
  done_stack w' = replicate (n - 1) 1%Z ++ [0%Z].
Proof.
  intros Hn Hr He Hf n x0.
  apply reset_ok in Hr as (e' & raw' & He' & -> & _).
  rewrite He in He'. injection He' as <- <-. fold x0 in Hf.
  destruct (reset_window_stacks e x0 w0 Hn) as (Ho & Ha & Hw & Hd & _).
  fold n in Ho, Ha, Hw, Hd.
  destruct (steps_extend_history acts (reset_window e x0 w0) w' rs
              (replicate (n - 1) 0%Z) (replicate (n - 1) 0%Z)
              (replicate (n - 1) (zeros_like x0) ++ [x0]))
    as (_ & Hl & Hd' & _ & _ & Ho'); try exact Hf;
    change (num_stack_frames (reset_window e x0 w0)) with n in *.
  - exact Hn.
  - rewrite Ha. symmetry. apply keep_last_fits.
    rewrite length_app, length_replicate. simpl. lia.
  - rewrite Hw. symmetry. apply keep_last_fits.
    rewrite length_app, length_replicate. simpl. lia.
  - rewrite Ho. symmetry. apply keep_last_fits.
    rewrite length_app, length_replicate. simpl. lia.
  - rewrite <- app_assoc in Ho'. simpl in Ho'.
    rewrite Hd', Hd. auto.
Qed.

(** X3.  A returning step hands on what the environment returned: the same
    reward, done flag and info, the environment's next state, and as last
    observation of the dict the environment's new frame (after the JPEG
    round trip when [jpeg_obs] is set). *)
Theorem step_passes_environment_outcome action w w' h rew done info :
  step action w = (w', Ok (h, rew, done, info)) →
  ∃ obs,
    env_step (env w) action = (env w', Ok (obs, rew, done, info)) ∧
    last (observations h)
    = Some (if jpeg_obs w then _process_jpeg obs else obs).
Proof.
  intros Hs. pose proof Hs as Hs'.
  apply step_ok in Hs' as (e & obs & acts & rews & He & _ & _ & -> & Ho & _).
  exists obs. split; [exact He|].
  rewrite step_unfold in Hs.
  destruct (set_last (act_stack w) action) as [acts'|]; [|discriminate].
  rewrite He in Hs.
  destruct (set_last (rew_stack w) rew) as [rews'|]; [|discriminate].
  simpl in Hs.
  destruct (_get_obs _) as [w'' [h'|x]] eqn:Hg; [|discriminate].
  injection Hs as _ ->.
  apply get_obs_ok in Hg as (_ & Ho' & _ & _ & Hne & _).
  rewrite Ho'. unfold step_window in *. simpl in *.
  unfold deque_append in *.
  set (x := if jpeg_obs w then _process_jpeg obs else obs) in *.
  set (k := length (obs_stack w ++ [x]) - num_stack_frames w) in *.
  destruct (Nat.le_gt_cases (length (obs_stack w ++ [x])) k) as [Hk|Hk].
  - rewrite drop_ge in Hne by exact Hk. congruence.
  - rewrite length_app in Hk. simpl in Hk.
    rewrite drop_app_le by lia. apply last_snoc.
Qed.

End WindowHistoryTheorems.

(** Three steps on a capacity-2 wrapper: the window keeps the last action
    and reward. *)
Lemma window_records_actions_and_rewards_witness :
  let w0 := scripted_wrapper 2 [(7, false); (8, false); (9, true)]%Z in
  let w1 := (scripted_reset None w0).1 in
  let acts := [5; 6; 4]%Z in
  let run := for_each scripted_step acts w1 in
  let rs := value_or run.2 [] in
  length rs = length acts ∧
  act_stack run.1 = keep_last 2 (replicate (2 - 1) 0%Z ++ acts ++ [0%Z]) ∧
  rew_stack run.1 =
    keep_last 2 (replicate (2 - 1) 0%Z ++ ((λ r, r.1.1.2) <$> rs) ++ [0%Z]).
Proof.
  intros w0 w1 acts run rs.
  refine (@window_records_actions_and_rewards scripted_env identity_codec
            w0 None w1 (mk_history [zeros_like (frame 9); frame 9] [0; 0] [0; 0])%Z
            acts run.1 rs _ _ _).
  - vm_compute. lia.
  - vm_compute. reflexivity.
  - vm_compute. reflexivity.
Defined.

Lemma window_records_frames_witness :
  let w0 := scripted_wrapper 2 [(7, false); (8, false); (9, true)]%Z in
  let w1 := (scripted_reset None w0).1 in
  let acts := [5; 6; 4]%Z in
  let run := for_each scripted_step acts w1 in
  let rs := value_or run.2 [] in
  let x0 := frame 9 in
  length (@returned_frames scripted_env rs) = length acts ∧
  obs_stack run.1 =
    keep_last 2 (replicate (2 - 1) (zeros_like x0)
                 ++ x0 :: @returned_frames scripted_env rs) ∧
  done_stack run.1 = replicate (2 - 1) 1%Z ++ [0%Z].
Proof.
  intros w0 w1 acts run rs x0.
  refine (@window_records_frames scripted_env identity_codec
            w0 None w1 (mk_history [zeros_like (frame 9); frame 9] [0; 0] [0; 0])%Z
            [(7, false); (8, false); (9, true)]%Z x0 acts run.1 rs _ _ _ _).
  - vm_compute. lia.
  - vm_compute. reflexivity.
  - vm_compute. reflexivity.
  - vm_compute. reflexivity.
Defined.

Lemma step_passes_environment_outcome_witness :
  let w1 := (scripted_reset None (scripted_wrapper 2 [(7, true)]%Z)).1 in
  let w' := (scripted_step 5%Z w1).1 in
  let h := mk_history [frame 9; frame 5] [5; 0]%Z [7; 0]%Z in
  ∃ obs,
    @env_step scripted_env (env w1) 5%Z = (env w', Ok (obs, 7%Z, true, tt)) ∧
    last (observations h) = Some obs.
Proof.
  intros w1 w' h.
  refine (@step_passes_environment_outcome scripted_env identity_codec
            5%Z w1 w' h 7%Z true tt _).
  vm_compute. reflexivity.
Defined.

(** ** Errors and edge cases of the wrapper *)

Section WrapperEdges.
Context `{RawEnvironment} `{JpegCodec}.
Implicit Types (w : wrapper) (h : history).

(** A step on a wrapper without any action in its window raises before the
    environment is called. *)
Lemma step_on_empty_window action w :
  act_stack w = [] → step action w = (w, Raise IndexError).
Proof. intros E. rewrite step_unfold, E. reflexivity. Qed.

(** X4.  A wrapper that was constructed but never reset stays exactly as
    constructed under any sequence of [step] and [_get_obs] calls: each
    [step] raises [IndexError] and each [_get_obs] raises [ValueError], the
    environment is never called and no deque is touched. *)
Theorem unreset_wrapper_is_inert e n jpeg (ops : list wrapper_op) :
  Forall (λ op, match op with OpStep _ | OpGetObs => True | _ => False end) ops →
  run_ops (__init__ e n jpeg) ops = __init__ e n jpeg ∧
  (∀ action, (step action (run_ops (__init__ e n jpeg) ops)).2 = Raise IndexError) ∧
  (_get_obs (run_ops (__init__ e n jpeg) ops)).2 = Raise ValueError.
Proof.
  intros Hops.
  assert (Hrun : run_ops (__init__ e n jpeg) ops = __init__ e n jpeg).
  { induction Hops as [|op ops Hop _ IH]; [reflexivity|].
    unfold run_ops. simpl. fold (run_ops (run_op (__init__ e n jpeg) op) ops).
    destruct op as [|action| |]; try contradiction.
    - unfold run_op at 1. rewrite step_on_empty_window by reflexivity. exact IH.
    - unfold run_op at 1. rewrite get_obs_state. exact IH. }
  rewrite Hrun. split; [reflexivity|]. split; [|reflexivity].
  intros action. rewrite step_on_empty_window; reflexivity.
Qed.

(** X5.  When the environment raises in [step], the wrapper raises the same
    exception and nothing is appended; the action has already been written
    over the placeholder of the current timestep, and every other deque is
    untouched. *)
Theorem step_fault_keeps_written_action action w e x :
  act_stack w ≠ [] →
  env_step (env w) action = (e, Raise x) →
  ∃ w' front y,
    step action w = (w', Raise x) ∧ env w' = e ∧
    act_stack w = front ++ [y] ∧ act_stack w' = front ++ [action] ∧
    obs_stack w' = obs_stack w ∧ rew_stack w' = rew_stack w ∧
    done_stack w' = done_stack w ∧ info_stack w' = info_stack w.
Proof.
  intros Hne He.
  destruct (set_last (act_stack w) action) as [acts|y] eqn:Hs.
  - destruct (set_last_spec _ _ _ Hs) as (front & y & Hf & ->).
    exists (set_env e (set_act_stack (front ++ [action]) w)), front, y.
    rewrite step_unfold, Hs, He. auto 10.
  - destruct (act_stack w); [congruence|discriminate].
Qed.

(** When the environment raises in [reset], so does the wrapper, and no
    deque changes. *)
Lemma reset_fault_propagates kwargs w e x :
  env_reset (env w) kwargs = (e, Raise x) →
  reset kwargs w = (set_env e w, Raise x).
Proof. intros He. rewrite reset_unfold, He. reflexivity. Qed.

Lemma deque_extend_bound_zero {A} (xs : list A) : deque_extend 0 [] xs = [].
Proof.
  induction xs as [|x xs IH] using rev_ind; [reflexivity|].
  rewrite deque_extend_snoc, IH. reflexivity.
Qed.

Lemma run_op_empty_window w op : empty_window w → empty_window (run_op w op).
Proof.
  intros (Hn & Ho & Ha & Hr & Hd & Hi).
  destruct op as [kwargs|action|obs n|]; simpl.
  - rewrite reset_unfold.
    destruct (env_reset (env w) kwargs) as [e [raw|x]].
    + rewrite get_obs_state. unfold empty_window, reset_window. simpl.
      rewrite Hn, Ho, Ha, Hr, Hd, Hi, !deque_extend_bound_zero. auto 10.
    + unfold empty_window. simpl. auto 10.
  - rewrite step_on_empty_window by exact Ha. unfold empty_window. auto 10.
  - rewrite pad_current_episode_state. unfold empty_window. simpl.
    rewrite Hn, Ho, Ha, Hr, Hd, Hi, !deque_extend_bound_zero. auto 10.
  - rewrite get_obs_state. unfold empty_window. auto 10.
Qed.

(** X6.  A wrapper of capacity 0 never holds anything: after any sequence of
    operations all five deques are empty, [step] raises [IndexError], and
    [reset] never returns a window: it raises [ValueError] after the
    environment has been reset, or the environment's own exception. *)
Theorem capacity_zero_never_yields_a_window e jpeg (ops : list wrapper_op) :
  let w := run_ops (__init__ e 0 jpeg) ops in
  empty_window w ∧
  (∀ action, step action w = (w, Raise IndexError)) ∧
  (∀ kwargs raw e', env_reset (env w) kwargs = (e', Ok raw) →
                    (reset kwargs w).2 = Raise ValueError) ∧
  (∀ kwargs h, (reset kwargs w).2 ≠ Ok h).
Proof.
  intros w.
  assert (Hw : empty_window w).
  { unfold w. generalize (__init__ e 0 jpeg),
      (ltac:(unfold empty_window; simpl; auto 10) : empty_window (__init__ e 0 jpeg)).
    induction ops as [|op ops IH]; intros w0 Hw0; [exact Hw0|].
    unfold run_ops. simpl. apply IH, run_op_empty_window, Hw0. }
  split; [exact Hw|]. destruct Hw as (Hn & Ho & Ha & Hr & Hd & Hi).
  assert (Hreset : ∀ kwargs raw e', env_reset (env w) kwargs = (e', Ok raw) →
                                    (reset kwargs w).2 = Raise ValueError).
  { intros kwargs raw e' He. rewrite reset_unfold, He.
    unfold _get_obs, bind, get, lift_result, reset_window. simpl.
    rewrite Hn, Ho, deque_extend_bound_zero. reflexivity. }
  split; [intros action; apply step_on_empty_window, Ha|].
  split; [exact Hreset|].
  intros kwargs h Hok.
  destruct (env_reset (env w) kwargs) as [e' [raw|x]] eqn:He.
  - rewrite (Hreset kwargs raw e' He) in Hok. discriminate.
  - rewrite reset_unfold, He in Hok. discriminate.
Qed.

End WrapperEdges.

Lemma unreset_wrapper_is_inert_witness :
  let w0 := scripted_wrapper 3 [(7, false)]%Z in
  let ops := [OpStep 5%Z; OpGetObs; OpStep 1%Z] in
  @run_ops scripted_env identity_codec w0 ops = w0 ∧
  (∀ action,
     (scripted_step action (@run_ops scripted_env identity_codec w0 ops)).2
     = Raise IndexError) ∧
  (@_get_obs scripted_env (@run_ops scripted_env identity_codec w0 ops)).2
  = Raise ValueError.
Proof.
  intros w0 ops.
  refine (@unreset_wrapper_is_inert scripted_env identity_codec
            [(7, false)]%Z 3 false ops _).
  repeat constructor.
Defined.

(** The script of the environment runs out on the second step. *)
Lemma step_fault_keeps_written_action_witness :
  let w1 := (scripted_reset None (scripted_wrapper 2 [(7, false)]%Z)).1 in
  let w := (scripted_step 5%Z w1).1 in
  ∃ w' front y,
    scripted_step 6%Z w = (w', Raise (EnvironmentFault 0)) ∧ env w' = [] ∧
    act_stack w = front ++ [y] ∧ act_stack w' = front ++ [6%Z] ∧
    obs_stack w' = obs_stack w ∧ rew_stack w' = rew_stack w ∧
    done_stack w' = done_stack w ∧ info_stack w' = info_stack w.
Proof.
  intros w1 w.
  refine (@step_fault_keeps_written_action scripted_env identity_codec
            6%Z w [] (EnvironmentFault 0) _ _).
  - vm_compute. discriminate.
  - vm_compute. reflexivity.
Defined.

Lemma capacity_zero_never_yields_a_window_witness :
  let w := @run_ops scripted_env identity_codec (scripted_wrapper 0 [])
             [OpReset None; OpPad (frame 1) 3] in
  (scripted_reset (Some 4%Z) w).2 = Raise ValueError.
Proof.
  intros w.
  refine (proj1 (proj2 (proj2
            (@capacity_zero_never_yields_a_window scripted_env identity_codec
               [] false [OpReset None; OpPad (frame 1) 3])))
            (Some 4%Z) (frame 9) [] _).
  vm_compute. reflexivity.
Defined.

(** ** The calls a rollout makes *)

Section RolloutTrace.
Context `{RawEnvironment} `{JpegCodec} `{Policy} `{RewardReading}.
Implicit Types (w : world) (v : round_vars).

Lemma on_slot_trace {A} j (m : M wrapper A) w :
  trace (on_slot j m w).1 = trace w.
Proof.
  unfold on_slot. destruct (envs w !! j) as [e|]; [|reflexivity].
  destruct (m e) as [e' r]. reflexivity.
Qed.

Lemma env_step_call_trace p w :
  trace (env_step_call p w).1 = trace w ++ [step_call_of p].
Proof.
  unfold env_step_call, bind, log, modify.
  pose proof (on_slot_trace p.1 (step p.2)
                (mk_world (envs w) (trace w ++ [CallStep p.1 p.2]))) as Ho.
  destruct (on_slot p.1 (step p.2) _) as [w1 [r|x]]; exact Ho.
Qed.

Lemma step_sweep_trace (ps : list (nat * Z)) w w' results :
  for_each env_step_call ps w = (w', Ok results) →
  trace w' = trace w ++ (step_call_of <$> ps).
Proof.
  revert w results. induction ps as [|p ps IH]; intros w results Hf.
  - injection Hf as <- <-. simpl. rewrite app_nil_r. reflexivity.
  - simpl in Hf. unfold bind at 1 in Hf.
    pose proof (env_step_call_trace p w) as Hp.
    destruct (env_step_call p w) as [w1 [r0|x]]; [|discriminate].
    unfold bind at 1 in Hf.
    destruct (for_each env_step_call ps w1) as [w2 [rest|x]] eqn:Hrest;
      [|discriminate].
    injection Hf as <- <-.
    rewrite (IH w1 rest Hrest). simpl in Hp. rewrite Hp.
    rewrite <- app_assoc. reflexivity.
Qed.

Lemma tick_trace_and_pool v w w' v' brk :
  tick v w = (w', Ok (v', brk)) →
  trace w' = trace w ++
    (step_call_of <$> zip (seq 0 (length (envs w))) (policy_fn (obs v) (rng v)).1) ∧
  length (envs w') = length (envs w).
Proof.
  intros Ht.
  apply tick_ok in Ht as (results & rew' & Hall & _).
  unfold step_all, bind at 1, get in Hall. split.
  - eapply step_sweep_trace, Hall.
  - eapply step_sweep_sizes, Hall.
Qed.

(** X7.  A tick that completes calls [step] exactly once on each wrapper
    that [zip(envs, actions)] pairs with an action, in slot order, each with
    its own action; it makes no other call and keeps the size of the pool. *)
Theorem tick_steps_each_slot_once v w w' v' brk :
  tick v w = (w', Ok (v', brk)) →
  trace w' = trace w ++
    (step_call_of <$> zip (seq 0 (length (envs w))) (policy_fn (obs v) (rng v)).1) ∧
  length (envs w') = length (envs w).
Proof.
  intros Ht.
  apply tick_ok in Ht as (results & rew' & Hall & _).
  unfold step_all, bind at 1, get in Hall.
  pose proof (step_sweep_trace _ _ _ _ Hall) as Htrace.
  pose proof (step_sweep_sizes _ _ _ _ Hall) as [_ Hpool].
  split; assumption.
Qed.

Lemma steps_on_app i (xs ys : list env_call) :
  steps_on i (xs ++ ys) = steps_on i xs + steps_on i ys.
Proof. induction xs as [|c xs IH]; simpl; [reflexivity|]. rewrite IH. lia. Qed.

(** A sweep over the slots [k, k+1, ...] does not step a slot below [k], and
    steps no slot twice. *)
Lemma sweep_steps_on_below i k m (acts : list Z) :
  i < k → steps_on i (step_call_of <$> zip (seq k m) acts) = 0.
Proof.
  revert k acts. induction m as [|m IH]; intros k acts Hi; [reflexivity|].
  destruct acts as [|a acts]; [reflexivity|]. simpl.
  destruct (Nat.eqb_spec k i) as [->|_]; [lia|].
  apply IH. lia.
Qed.

Lemma sweep_steps_on i k m (acts : list Z) :
  steps_on i (step_call_of <$> zip (seq k m) acts) ≤ 1.
Proof.
  revert k acts. induction m as [|m IH]; intros k acts; [simpl; lia|].
  destruct acts as [|a acts]; [simpl; lia|]. simpl.
  destruct (Nat.eqb_spec k i) as [->|_].
  - rewrite sweep_steps_on_below by lia. lia.
  - apply IH.
Qed.

(** The tick loop only steps: whatever it logs are step calls, at most one
    per slot and tick, and the arrays of the round keep the size of the pool. *)
Lemma tick_loop_trace_and_shapes n v w w' v' :
  tick_loop n v w = (w', Ok v') →
  length (done v) = length (envs w) →
  length (rew_sum v) = length (envs w) →
  length (envs w') = length (envs w) ∧
  length (done v') = length (envs w) ∧
  length (rew_sum v') = length (envs w) ∧
  ∃ steps, trace w' = trace w ++ steps ∧ Forall is_step_call steps ∧
           length steps ≤ n * length (envs w) ∧
           ∀ i, steps_on i steps ≤ n.
Proof.
  revert v w. induction n as [|n IH]; intros v w Hl Hd Hs.
  - injection Hl as <- <-. repeat split; try assumption.
    exists []. rewrite app_nil_r. split; [reflexivity|]. split; [constructor|].
    split; [simpl; lia|]. intros i. simpl. lia.
  - simpl in Hl. unfold bind in Hl.
    destruct (tick v w) as [w1 [[v1 brk]|x]] eqn:Ht; [|discriminate].
    destruct (tick_keeps_shapes v w w1 v1 brk Ht Hd Hs) as (Hp1 & Hd1 & Hs1).
    destruct (tick_trace_and_pool v w w1 v1 brk Ht) as [Ht1 _].
    pose proof (λ i, sweep_steps_on i 0 (length (envs w))
                       (policy_fn (obs v) (rng v)).1) as Hc3.
    set (calls := step_call_of <$> zip (seq 0 (length (envs w)))
                    (policy_fn (obs v) (rng v)).1) in *.
    assert (Hcalls : Forall is_step_call calls ∧ length calls ≤ length (envs w)).
    { split.
      - apply Forall_fmap, Forall_forall. intros p _. exact I.
      - unfold calls. rewrite length_fmap, length_zip, length_seq. lia. }
    destruct Hcalls as [Hc1 Hc2].
    simpl in Hl. destruct brk.
    + injection Hl as <- <-. repeat split; try assumption.
      exists calls. split; [exact Ht1|]. split; [exact Hc1|].
      split; [simpl; lia|]. intros i. specialize (Hc3 i). lia.
    + destruct (IH v1 w1 Hl) as (Hp2 & Hd2 & Hs2 & steps & Ht2 & Hf2 & Hn2 & Hk2);
        [congruence|congruence|].
      rewrite Hp1 in *. repeat split; try assumption.
      exists (calls ++ steps). rewrite Ht2, Ht1, app_assoc.
      split; [reflexivity|]. split; [apply Forall_app; auto|].
      split; [rewrite length_app; simpl; lia|].
      intros i. rewrite steps_on_app. specialize (Hc3 i). specialize (Hk2 i). lia.
Qed.

Lemma env_reset_call_effect seeds i w w1 h :
  env_reset_call seeds i w = (w1, Ok h) →
  ∃ s, seeds !! i = Some s ∧ trace w1 = trace w ++ [CallReset i s] ∧
       length (envs w1) = length (envs w).
Proof.
  unfold env_reset_call. destruct (seeds !! i) as [s|]; [|discriminate].
  unfold bind, log, modify. intros Hc.
  pose proof (on_slot_trace i (reset (Some s))
                (mk_world (envs w) (trace w ++ [CallReset i s]))) as Ht.
  pose proof (on_slot_pool_size i (reset (Some s))
                (mk_world (envs w) (trace w ++ [CallReset i s]))) as Hp.
  destruct (on_slot i (reset (Some s)) _) as [w2 [r|x]]; [|discriminate].
  injection Hc as <- <-. exists s. auto.
Qed.

(** The resets that open a round: one per slot, in slot order, each with
    the seed at the slot's position. *)
Lemma reset_sweep_trace seeds k m w w1 hs :
  for_each (env_reset_call seeds) (seq k m) w = (w1, Ok hs) →
  trace w1 = trace w ++ zip_with CallReset (seq k m) (take m (drop k seeds)) ∧
  length (take m (drop k seeds)) = m ∧
  length (envs w1) = length (envs w).
Proof.
  revert k w hs. induction m as [|m IH]; intros k w hs Hf.
  - injection Hf as <- <-. simpl. rewrite app_nil_r. auto.
  - simpl in Hf. unfold bind at 1 in Hf.
    destruct (env_reset_call seeds k w) as [w2 [h|x]] eqn:Hc; [|discriminate].
    unfold bind at 1 in Hf.
    destruct (for_each (env_reset_call seeds) (seq (S k) m) w2)
      as [w3 [rest|x]] eqn:Hrest; [|discriminate].
    injection Hf as <- <-.
    apply env_reset_call_effect in Hc as (s & Hs & Ht & Hp).
    destruct (IH (S k) w2 rest Hrest) as (Ht' & Hl' & Hp').
    rewrite (drop_S _ _ _ Hs). simpl.
    rewrite Ht', Ht, <- app_assoc, Hl', Hp', Hp. auto.
Qed.

Lemma stack_batch_state {S} (obs_list : list history) (s s' : S) b :
  stack_batch obs_list s = (s', Ok b) → s' = s.
Proof.
  unfold stack_batch. destruct obs_list as [|h hs]; [discriminate|].
  unfold bind, lift_result, ret.
  repeat (match goal with |- context [np_stack ?f ?l] => destruct (np_stack f l) end;
          try discriminate).
  congruence.
Qed.

(** A round that completes returns one entry per slot and keeps the size
    of the pool. *)
Lemma rollout_round_shapes num_batch num_steps seeds_list c w w' r :
  rollout_round num_batch num_steps seeds_list c w = (w', Ok r) →
  num_batch = length (envs w) →
  length r = num_batch ∧ length (envs w') = num_batch.
Proof.
  intros Hr Hnb. unfold rollout_round in Hr.
  destruct (_ !! 0) as [s0|]; [|discriminate].
  unfold bind at 1 in Hr.
  destruct (for_each _ (seq 0 num_batch) w) as [w1 [hs|x]] eqn:Hresets;
    [|discriminate].
  unfold bind at 1 in Hr.
  destruct (stack_batch hs w1) as [w1' [obs0|x]] eqn:Hst; [|discriminate].
  apply stack_batch_state in Hst as ->.
  unfold bind at 1 in Hr.
  destruct (tick_loop _ _ w1) as [w2 [v|x]] eqn:Hloop; [|discriminate].
  injection Hr as <- <-.
  apply reset_sweep_trace in Hresets as (_ & _ & Hp1).
  apply tick_loop_trace_and_shapes in Hloop as (Hp2 & _ & Hs2 & _);
    [|simpl; rewrite length_replicate; congruence..].
  simpl in Hs2. split; congruence.
Qed.

(** X8.  A round that completes resets every environment of the pool
    exactly once, in slot order, slot [i] with the seed at position
    [c * num_batch + i] of the seed list, before any step; everything it
    calls afterwards is a step, at most [num_steps] on any one slot; and it
    returns one cumulative reward per slot. *)
Theorem round_resets_then_steps num_batch num_steps seeds_list c w w' r :
  rollout_round num_batch num_steps seeds_list c w = (w', Ok r) →
  num_batch = length (envs w) →
  let seeds := take num_batch (drop (c * num_batch) seeds_list) in
  length seeds = num_batch ∧ length r = num_batch ∧
  length (envs w') = num_batch ∧
  ∃ steps,
    trace w' = trace w ++ zip_with CallReset (seq 0 num_batch) seeds ++ steps ∧
    Forall is_step_call steps ∧
    length steps ≤ Z.to_nat num_steps * num_batch ∧
    ∀ i, steps_on i steps ≤ Z.to_nat num_steps.
Proof.
  intros Hr Hnb seeds. unfold rollout_round in Hr. fold seeds in Hr.
  destruct (seeds !! 0) as [s0|]; [|discriminate].
  unfold bind at 1 in Hr.
  destruct (for_each (env_reset_call seeds) (seq 0 num_batch) w)
    as [w1 [hs|x]] eqn:Hresets; [|discriminate].
  unfold bind at 1 in Hr.
  destruct (stack_batch hs w1) as [w1' [obs0|x]] eqn:Hst; [|discriminate].
  apply stack_batch_state in Hst as ->.
  unfold bind at 1 in Hr.
  destruct (tick_loop _ _ w1) as [w2 [v|x]] eqn:Hloop; [|discriminate].
  injection Hr as <- <-.
  apply reset_sweep_trace in Hresets as (Ht1 & Hl1 & Hp1).
  rewrite drop_0 in Ht1, Hl1.
  assert (Hseeds : take num_batch seeds = seeds).
  { apply take_ge. unfold seeds. rewrite length_take. lia. }
  rewrite Hseeds in Ht1, Hl1.
  apply tick_loop_trace_and_shapes in Hloop
    as (Hp2 & _ & Hs2 & steps & Ht2 & Hf2 & Hn2 & Hk2);
    [|simpl; rewrite length_replicate; congruence..].
  simpl in Hs2. rewrite Hp1 in *. rewrite <- Hnb in *.
  repeat split; try assumption.
  exists steps. rewrite Ht2, Ht1, <- app_assoc. auto.
Qed.

Lemma rounds_shapes num_batch num_steps seeds_list (cs : list nat) w w' rs :
  for_each (rollout_round num_batch num_steps seeds_list) cs w = (w', Ok rs) →
  num_batch = length (envs w) →
  length rs = length cs ∧ Forall (λ r, length r = num_batch) rs.
Proof.
  revert w rs. induction cs as [|c cs IH]; intros w rs Hf Hnb.
  - injection Hf as <- <-. auto.
  - simpl in Hf. unfold bind at 1 in Hf.
    destruct (rollout_round num_batch num_steps seeds_list c w)
      as [w1 [r|x]] eqn:Hr; [|discriminate].
    unfold bind at 1 in Hf.
    destruct (for_each _ cs w1) as [w2 [rest|x]] eqn:Hrest; [|discriminate].
    injection Hf as <- <-.
    destruct (rollout_round_shapes _ _ _ _ _ _ _ Hr Hnb) as (Hlr & Hp).
    destruct (IH w1 rest Hrest) as [Hl Hall]; [congruence|].
    simpl. split; [lia|]. constructor; assumption.
Qed.

Lemma concat_length_uniform {A} (n : nat) (ls : list (list A)) :
  Forall (λ l, length l = n) ls → length (concat ls) = length ls * n.
Proof.
  induction 1 as [|l ls Hl _ IH]; [reflexivity|].
  simpl. rewrite length_app, IH, Hl. reflexivity.
Qed.

(** X9.  Whenever [_batch_rollout] returns, it returns exactly
    [num_episodes] cumulative rewards, and [num_episodes] is positive. *)
Theorem batch_rollout_returns_one_reward_per_episode num_episodes randint w w' r :
  _batch_rollout num_episodes randint w = (w', Ok r) →
  Z.of_nat (length r) = num_episodes ∧ (0 < num_episodes)%Z.
Proof.
  unfold _batch_rollout, bind at 1, get.
  destruct (envs w !! 0) as [e0|] eqn:E0; [|discriminate].
  assert (Hpos : 0 < length (envs w)) by (eapply lookup_lt_Some, E0).
  destruct (Z.eqb_spec (num_episodes mod Z.of_nat (length (envs w))) 0)
    as [Hmod|_]; [|discriminate].
  unfold bind at 1.
  destruct (for_each _ _ w) as [w1 [rs|x]] eqn:Hrounds; [|discriminate].
  apply rounds_shapes in Hrounds as [Hl Hall]; [|reflexivity].
  rewrite length_seq in Hl.
  pose proof (concat_length_uniform _ _ Hall) as Hc. rewrite Hl in Hc.
  assert (Hrs : rs ≠ [] → 0 < length rs) by (destruct rs; simpl; [congruence|lia]).
  destruct rs as [|r0 rs']; [discriminate|].
  intros [= <- <-]. specialize (Hrs ltac:(discriminate)).
  change (r0 ++ concat rs') with (concat (r0 :: rs')).
  rewrite Hc. rewrite Hl in Hrs.
  apply Z.mod_divide in Hmod as [k Hk]; [|lia].
  subst num_episodes.
  rewrite Z.div_mul in * by lia.
  split; nia.
Qed.

(** X10.  [num_episodes] zero or a negative multiple of the pool size passes
    the assertion, runs no round, and fails in [np.concatenate] on the empty
    list of results with [ValueError]; no environment is called. *)
Theorem batch_rollout_without_episodes num_episodes randint w :
  envs w ≠ [] →
  (Z.of_nat (length (envs w)) | num_episodes)%Z →
  (num_episodes <= 0)%Z →
  _batch_rollout num_episodes randint w = (w, Raise ValueError).
Proof.
  intros Hne Hdiv Hle. unfold _batch_rollout, bind at 1, get.
  destruct (envs w !! 0) as [e0|] eqn:E0;
    [|destruct (envs w); [congruence|discriminate]].
  assert (Hpos : 0 < length (envs w)) by (eapply lookup_lt_Some, E0).
  destruct (Z.eqb_spec (num_episodes mod Z.of_nat (length (envs w))) 0)
    as [_|Hmod]; [|exfalso; apply Hmod, Z.mod_divide; [lia|exact Hdiv]].
  replace (Z.to_nat (num_episodes / Z.of_nat (length (envs w)))) with 0.
  - reflexivity.
  - assert (num_episodes / Z.of_nat (length (envs w)) <= 0)%Z.
    { apply Z.div_le_upper_bound; lia. }
    lia.
Qed.

(** X11.  Once every slot is latched the tick loop has stopped: if a run
    with a budget of [n >= 1] ticks ends with all done flags set, a run from
    the same state with any larger budget ends in the same state, with the
    same calls made. *)
Theorem larger_budget_changes_nothing_once_all_done n m v w w' v' :
  tick_loop n v w = (w', Ok v') →
  1 ≤ n → n ≤ m →
  np_all (done v') = true →
  tick_loop m v w = (w', Ok v').
Proof.
  revert m v w. induction n as [|n IH]; intros m v w Hl Hn Hm Hall; [lia|].
  destruct m as [|m]; [lia|].
  simpl in *. unfold bind in *.
  destruct (tick v w) as [w1 [[v1 brk]|x]] eqn:Ht; [|discriminate].
  simpl in *. destruct brk; [exact Hl|].
  destruct n as [|n].
  - injection Hl as <- <-.
    apply tick_ok in Ht as (_ & _ & _ & _ & _ & _ & _ & Hb).
    congruence.
  - apply IH; [exact Hl|lia|lia|exact Hall].
Qed.

(** X12.  For a slot that starts a run of the tick loop unlatched and is
    stepped on every tick, when the rewards its environment reports from its
    first done on are finite: the cumulative reward at the end holds the
    number that float32 accumulation of the rewards reported strictly before
    the first done gives, each added in double precision to the sum so far
    and the sum rounded to float32; the reward of the done tick and
    everything reported afterwards is left out. *)
Theorem cumulative_reward_is_reward_before_done n v w w' v' i s outcomes :
  tick_loop n v w = (w', Ok v') →
  slot_outcomes i n v w = Some outcomes →
  done v !! i = Some 0%Z →
  rew_sum v !! i = Some s →
  is_float32 s = true →
  Forall (λ r, is_finite (np_float64 r) = true) (rewards_from_done outcomes) →
  ∃ s', rew_sum v' !! i = Some s' ∧ same_number (credited s outcomes) s'.
Proof.
  revert v w s outcomes.
  induction n as [|n IH]; intros v w s outcomes Hl Ho Hd Hs Hv Hfin.
  - injection Hl as <- <-. injection Ho as <-. simpl.
    exists s. split; [exact Hs|apply same_number_refl].
  - simpl in Hl, Ho. unfold bind in Hl.
    destruct ((step_all (policy_fn (obs v) (rng v)).1 w).2) as [results|x] eqn:Hres;
      [|discriminate].
    destruct (tick v w) as [w1 [[v1 brk]|x]] eqn:Ht; [|discriminate].
    destruct (results !! i) as [r|] eqn:Hr; [|discriminate].
    destruct (tick_slot_update v w w1 v1 brk results i r 0%Z s Ht Hres Hr Hd Hs)
      as [Hd1 Hs1].
    simpl in Hl.
    destruct r as [[[h rew] d] info]. simpl in *.
    destruct d.
    + (* done reported on this tick: nothing more is credited *)
      change (logical_or true 0) with 1%Z in Hd1, Hs1.
      assert (Hout : ∃ rest, outcomes = (rew, true) :: rest ∧
                (brk = false → slot_outcomes i n v1 w1 = Some rest)).
      { destruct brk; [injection Ho as <-; eexists; split; [reflexivity|discriminate]|].
        destruct (slot_outcomes i n v1 w1) as [rest|]; [|discriminate].
        injection Ho as <-. eauto. }
      destruct Hout as (rest & -> & Hrest). simpl in Hfin. simpl.
      apply Forall_cons in Hfin as [Hrew Hfin].
      unfold masked in Hs1.
      change (float64_of_int (1 - 1)) with (S754_zero false) in Hs1.
      destruct (float64_mul_zero _ Hrew) as [b Hb]. rewrite Hb in Hs1.
      pose proof (float32_iadd_zero s b Hv) as Hsame1.
      destruct brk.
      * injection Hl as <- <-. eexists. split; [exact Hs1|exact Hsame1].
      * assert (Hfin' : Forall (λ o, is_finite (np_float64 o.1) = true) rest)
          by (apply Forall_fmap in Hfin; exact Hfin).
        destruct (tick_loop_keeps_latched n v1 w1 w' v' i 1%Z _ rest
                    Hl (Hrest eq_refl) Hfin' Hd1 ltac:(lia) Hs1
                    (float32_iadd_is_float32 _ _)) as (s' & Hs' & Hsame').
        exists s'. split; [exact Hs'|].
        apply (same_number_trans _ _ _ Hsame1 Hsame').
    + change (logical_or false 0) with 0%Z in Hd1, Hs1.
      destruct brk.
      * injection Hl as <- <-. injection Ho as <-. simpl.
        eexists. split; [exact Hs1|apply same_number_refl].
      * destruct (slot_outcomes i n v1 w1) as [rest|] eqn:Hrest; [|discriminate].
        injection Ho as <-. simpl in Hfin. simpl.
        apply (IH v1 w1 _ rest Hl Hrest Hd1 Hs1);
          [apply float32_iadd_is_float32|exact Hfin].
Qed.

End RolloutTrace.

(** The first tick of the demo round steps slot 0, then slot 1, with the
    policy's action 3. *)
Lemma tick_steps_each_slot_once_witness :
  let r := scripted_tick demo_vars demo_world in
  trace r.1 = trace demo_world ++ [CallStep 0 3%Z; CallStep 1 3%Z] ∧
  length (envs r.1) = length (envs demo_world).
Proof.
  intros r.
  refine (@tick_steps_each_slot_once scripted_env identity_codec constant_policy
            scripted_reading
            demo_vars demo_world r.1 (value_or r.2 (demo_vars, false)).1 false _).
  vm_compute. reflexivity.
Defined.

(** The first round of two episodes on the demo pool: two resets with the
    first two seeds, then steps only, no more than five on a slot. *)
Lemma round_resets_then_steps_witness :
  let w := scripted_pool 2 demo_scripts in
  let run := @rollout_round scripted_env identity_codec constant_policy
               scripted_reading 2 5%Z [11; 12]%Z 0 w in
  let seeds := take 2 (drop (0 * 2) [11; 12]%Z) in
  length seeds = 2 ∧ length (float32_of_int <$> [1; 5]%Z) = 2 ∧
  length (envs run.1) = 2 ∧
  ∃ steps,
    trace run.1 = trace w ++ zip_with CallReset (seq 0 2) seeds ++ steps ∧
    Forall (@is_step_call) steps ∧
    length steps ≤ Z.to_nat 5 * 2 ∧
    ∀ i, steps_on i steps ≤ Z.to_nat 5.
Proof.
  intros w run seeds.
  refine (@round_resets_then_steps scripted_env identity_codec constant_policy
            scripted_reading
            2 5%Z [11; 12]%Z 0 w run.1 (float32_of_int <$> [1; 5]%Z) _ _).
  - vm_compute. reflexivity.
  - reflexivity.
Defined.

Lemma batch_rollout_returns_one_reward_per_episode_witness :
  Z.of_nat (length (float32_of_int <$> [1; 5]%Z)) = 2%Z ∧ (0 < 2)%Z.
Proof.
  refine (@batch_rollout_returns_one_reward_per_episode scripted_env
            identity_codec constant_policy scripted_reading 2%Z (λ k, Z.of_nat k)
            (scripted_pool 2 demo_scripts)
            (scripted_rollout 2%Z (λ k, Z.of_nat k) (scripted_pool 2 demo_scripts)).1
            (float32_of_int <$> [1; 5]%Z) _).
  vm_compute. reflexivity.
Defined.

Lemma batch_rollout_without_episodes_witness :
  let w := scripted_pool 2 demo_scripts in
  scripted_rollout 0%Z (λ k, Z.of_nat k) w = (w, Raise ValueError).
Proof.
  intros w.
  refine (@batch_rollout_without_episodes scripted_env identity_codec
            constant_policy scripted_reading 0%Z (λ k, Z.of_nat k) w _ _ _).
  - discriminate.
  - exists 0%Z. reflexivity.
  - lia.
Defined.

(** A one-slot round whose environment is done on its second step: budgets
    of 2 and of 5 ticks end alike. *)
Lemma larger_budget_changes_nothing_once_all_done_witness :
  let w := (for_each (@env_reset_call scripted_env identity_codec [11%Z]) (seq 0 1)
              (scripted_pool 2 [[(1, false); (2, true)]%Z])).1 in
  let v := @mk_round_vars constant_policy
             (mk_batch [[zeros_like (frame 9); frame 9]] [[0; 0]%Z] [[0; 0]%Z])
             [S754_zero false] [0%Z] 11%Z in
  let r := scripted_tick_loop 2 v w in
  scripted_tick_loop 5 v w = (r.1, Ok (value_or r.2 v)).
Proof.
  intros w v r.
  refine (@larger_budget_changes_nothing_once_all_done scripted_env
            identity_codec constant_policy scripted_reading
            2 5 v w r.1 (value_or r.2 v) _ _ _ _).
  - vm_compute. reflexivity.
  - lia.
  - lia.
  - vm_compute. reflexivity.
Defined.

(** Slot 0 of the demo round reports rewards 1, 5, 4, 2, 6 and done on its
    second tick: it is credited 1. *)
Lemma cumulative_reward_is_reward_before_done_witness :
  let r := scripted_tick_loop 5 demo_vars demo_world in
  let outcomes := [(1, false); (5, true); (4, false); (2, false); (6, false)]%Z in
  ∃ s', rew_sum (value_or r.2 demo_vars) !! 0 = Some s' ∧
        same_number (@credited scripted_reading (S754_zero false) outcomes) s'.
Proof.
  intros r outcomes.
  refine (@cumulative_reward_is_reward_before_done scripted_env identity_codec
            constant_policy scripted_reading
            5 demo_vars demo_world r.1 (value_or r.2 demo_vars)
            0 (S754_zero false) outcomes _ _ _ _ _ _).
  - vm_compute. reflexivity.
  - vm_compute. reflexivity.
  - vm_compute. reflexivity.
  - vm_compute. reflexivity.
  - vm_compute. reflexivity.
  - repeat constructor.
Defined.

(** What the credit of slot 0 above comes to, and the rounding of the
    accumulation: a reward of 1 added to a cumulative reward of 2^24 is
    lost, because 2^24 + 1 is not a float32. *)
Example credited_demo :
  @credited scripted_reading (S754_zero false)
    [(1, false); (5, true); (4, false); (2, false); (6, false)]%Z
  = float32_of_int 1.
Proof. vm_compute. reflexivity. Qed.

Example credited_rounds_to_float32 :
  @credited scripted_reading (float32_of_int 16777216) [(1, false)]%Z
  = float32_of_int 16777216.
Proof. vm_compute. reflexivity. Qed.

(** ** Items of the dataset *)

Section DatasetFacts.
Import StateActionReturnDataset.
Implicit Types (ds : dataset) (idx : Z).

Lemma first_done_after_spec idx (idxs : list Z) i :
  first_done_after idx idxs = Some i → (idx < i)%Z ∧ i ∈ idxs.
Proof.
  induction idxs as [|j rest IH]; [discriminate|]. simpl.
  destruct (Z.ltb_spec idx j).
  - intros [= <-]. split; [assumption|left].
  - intros Hr. destruct (IH Hr). split; [assumption|right; assumption].
Qed.

Lemma first_done_after_none idx (idxs : list Z) d :
  first_done_after idx idxs = None → d ∈ idxs → (d <= idx)%Z.
Proof.
  induction idxs as [|j rest IH]; intros Hn Hd.
  - inversion Hd.
  - simpl in Hn. destruct (Z.ltb_spec idx j); [discriminate|].
    apply elem_of_cons in Hd as [->|Hd]; [assumption|auto].
Qed.

(** In an ascending list the first entry above [idx] is the least one. *)
Lemma first_done_after_least idx (idxs : list Z) i d :
  StronglySorted Z.le idxs →
  first_done_after idx idxs = Some i → d ∈ idxs → (idx < d)%Z → (i <= d)%Z.
Proof.
  induction 1 as [|j rest Hs IH Hall]; intros Hf Hd Hlt.
  - inversion Hd.
  - simpl in Hf. destruct (Z.ltb_spec idx j).
    + injection Hf as <-.
      apply elem_of_cons in Hd as [->|Hd]; [lia|].
      rewrite List.Forall_forall in Hall. apply Hall, list_elem_of_In, Hd.
    + apply elem_of_cons in Hd as [->|Hd]; [lia|auto].
Qed.

Lemma item_window_contains_index_aux ds idx :
  (3 <= block_size ds)%Z →
  let bs := (block_size ds / 3)%Z in
  let start := (item_bounds ds idx).1 in
  let stop := (item_bounds ds idx).2 in
  (stop = start + bs ∧ start <= idx < stop ∧ stop <= idx + bs)%Z.
Proof.
  intros Hb bs start stop.
  assert (1 <= bs)%Z by (unfold bs; apply Z.div_le_lower_bound; lia).
  unfold start, stop, item_bounds. fold bs.
  destruct (first_done_after idx (done_idxs ds)) as [i|] eqn:Hf; simpl.
  - apply first_done_after_spec in Hf as [Hi _]. lia.
  - lia.
Qed.


(** X14.  When [done_idxs] is ascending, no episode end above [idx] lies
    before the end of the item's window: the part of the window from [idx]
    on stays within one episode. *)
Theorem item_window_stops_at_episode_end ds idx d :
  StronglySorted Z.le (done_idxs ds) →
  d ∈ done_idxs ds → (idx < d)%Z → ((item_bounds ds idx).2 <= d)%Z.
Proof.
  intros Hs Hd Hlt. unfold item_bounds.
  destruct (first_done_after idx (done_idxs ds)) as [i|] eqn:Hf; simpl.
  - pose proof (first_done_after_least idx _ i d Hs Hf Hd Hlt). lia.
  - pose proof (first_done_after_none idx _ d Hf Hd). lia.
Qed.

Lemma py_slice_in_range {A} (xs : list A) (a b : Z) :
  (0 <= a <= b)%Z → (b <= Z.of_nat (length xs))%Z →
  py_slice xs a b = take (Z.to_nat (b - a)) (drop (Z.to_nat a) xs) ∧
  length (py_slice xs a b) = Z.to_nat (b - a).
Proof.
  intros Ha Hb. unfold py_slice, py_clamp.
  destruct (Z.ltb_spec a 0); [lia|]. destruct (Z.ltb_spec b 0); [lia|].
  rewrite !Z.min_l by lia. split; [reflexivity|].
  rewrite length_take, length_drop. lia.
Qed.

(** A slice whose start wraps around to a position at or past its stop is
    empty. *)
Lemma py_slice_wrapped {A} (xs : list A) (a b : Z) :
  (a < 0 <= b)%Z → (b - a <= Z.of_nat (length xs))%Z → py_slice xs a b = [].
Proof.
  intros Ha Hb. unfold py_slice, py_clamp.
  destruct (Z.ltb_spec a 0); [|lia]. destruct (Z.ltb_spec b 0); [lia|].
  replace (Z.to_nat _) with 0 by lia. reflexivity.
Qed.

Lemma rows_of_concat {A} (k : nat) (ls : list (list A)) :
  Forall (λ l, length l = k) ls → rows_of (length ls) k (concat ls) = ls.
Proof.
  induction 1 as [|l ls Hl _ IH]; [reflexivity|]. simpl.
  rewrite take_app_length' by (symmetry; exact Hl).
  rewrite drop_app_length' by (symmetry; exact Hl). rewrite IH. reflexivity.
Qed.

Lemma rows_of_nothing {A} (n : nat) : rows_of n 0 ([] : list A) = replicate n [].
Proof. induction n as [|n IH]; [reflexivity|]. simpl. rewrite IH. reflexivity. Qed.

Lemma np_array_uniform (frames : list ndarray) sh :
  Forall (λ f, shape f = sh) frames →
  np_array frames = Returns (concat (frame_data <$> frames)).
Proof.
  intros Hu. destruct frames as [|f rest]; [reflexivity|].
  unfold np_array. inversion Hu as [|? ? Hf Hrest]; subst.
  replace (forallb _ rest) with true; [reflexivity|].
  symmetry. apply forallb_forall. intros g Hg.
  apply bool_decide_eq_true. rewrite List.Forall_forall in Hrest. auto.
Qed.

Lemma reshape_rows_uniform {A} (k : nat) (ls : list (list A)) :
  ls ≠ [] → Forall (λ l, length l = k) ls →
  reshape_rows (concat ls) (Z.of_nat (length ls)) = Returns ls.
Proof.
  intros Hne Hu. unfold reshape_rows.
  assert (Hlen : length (concat ls) = length ls * k).
  { clear Hne. induction Hu as [|l ls' Hl _ IH]; [reflexivity|].
    simpl. rewrite length_app, IH, Hl. reflexivity. }
  assert (0 < length ls) by (destruct ls; simpl; [congruence|lia]).
  rewrite Hlen, Nat2Z.inj_mul.
  destruct (Z.ltb_spec 0 (Z.of_nat (length ls))); [|lia].
  rewrite Z.mul_comm, Z.mod_mul, Z.div_mul by lia. simpl.
  rewrite !Nat2Z.id, rows_of_concat by exact Hu. reflexivity.
Qed.

Lemma Forall_slice {A} (P : A → Prop) (xs : list A) n m :
  Forall P xs → Forall P (take n (drop m xs)).
Proof. intros Hx. apply Forall_take, Forall_drop, Hx. Qed.

Lemma float32_tensor_concat (ls : list (list Z)) :
  float32_tensor (concat ls) = concat (float32_tensor <$> ls).
Proof.
  unfold float32_tensor. induction ls as [|l ls IH]; [reflexivity|].
  simpl. rewrite fmap_app, IH. reflexivity.
Qed.

(** X15.  For an index [0 <= idx < __len__] of a dataset with
    [block_size >= 3], equally shaped frames and at least as many actions,
    returns-to-go and timesteps as frames, whose window does not start
    before position 0: [__getitem__] returns, with [bs = block_size // 3],
    the [bs] frames from the window start on as rows of float32 numbers,
    every entry rounded to float32 and then divided by 255 in single
    precision; the [bs] actions at the same positions; the [bs]
    returns-to-go at the same positions, rounded to float32; and the one
    timestep at the window start. *)
Theorem getitem_reads_the_window ds idx sh (k : nat) :
  (3 <= block_size ds)%Z →
  (0 <= idx < __len__ ds)%Z →
  (0 <= (item_bounds ds idx).1)%Z →
  length (data ds) ≤ length (actions ds) →
  length (data ds) ≤ length (rtgs ds) →
  length (data ds) ≤ length (timesteps ds) →
  Forall (λ f, shape f = sh ∧ length (frame_data f) = k) (data ds) →
  let bs := Z.to_nat (block_size ds / 3) in
  let start := Z.to_nat (item_bounds ds idx).1 in
  __getitem__ ds idx =
    Returns (mk_item
      ((λ f, (λ v, float32_div (float32_of_int v) (float32_of_int 255))
               <$> frame_data f)
         <$> take bs (drop start (data ds)))
      (unsqueeze1 (take bs (drop start (actions ds))))
      (unsqueeze1 (float32_of_int <$> take bs (drop start (rtgs ds))))
      (unsqueeze1 (take 1 (drop start (timesteps ds))))) ∧
  length (take bs (drop start (data ds))) = bs ∧
  length (take bs (drop start (actions ds))) = bs ∧
  length (take bs (drop start (rtgs ds))) = bs ∧
  length (take 1 (drop start (timesteps ds))) = 1.
Proof.
  intros Hb Hidx Hstart Hla Hlr Hlt Hu bs start.
  destruct (item_window_contains_index_aux ds idx Hb) as (Hstop & Hin & Hend).
  unfold __len__ in Hidx.
  assert (Hbs : (1 <= block_size ds / 3 <= block_size ds)%Z).
  { split; [apply Z.div_le_lower_bound; lia|apply Z.div_le_upper_bound; lia]. }
  unfold __getitem__.
  destruct (item_bounds ds idx) as [a b] eqn:Hab. simpl in *.
  assert (Hrange : (0 <= a <= b)%Z ∧ (b <= Z.of_nat (length (data ds)))%Z) by lia.
  destruct Hrange as [Hab1 Hab2].
  assert (Hw : Z.to_nat (b - a) = bs) by (unfold bs; f_equal; lia).
  destruct (py_slice_in_range (data ds) a b Hab1 Hab2) as [Hsd Hld].
  destruct (py_slice_in_range (actions ds) a b Hab1 ltac:(lia)) as [Hsa Hlsa].
  destruct (py_slice_in_range (rtgs ds) a b Hab1 ltac:(lia)) as [Hsr Hlsr].
  destruct (py_slice_in_range (timesteps ds) a (a + 1) ltac:(lia) ltac:(lia))
    as [Hst Hlst].
  replace (Z.to_nat (a + 1 - a)) with 1 in Hst, Hlst by lia.
  rewrite Hw in *. fold start in Hsd, Hsa, Hsr, Hst.
  rewrite Hsd, Hsa, Hsr, Hst in *.
  set (frames := take bs (drop start (data ds))) in *.
  assert (Hf : Forall (λ f, shape f = sh ∧ length (frame_data f) = k) frames)
    by (apply Forall_slice, Hu).
  rewrite (np_array_uniform frames sh)
    by (eapply Forall_impl; [exact Hf|intros f [? _]; assumption]).
  rewrite float32_tensor_concat.
  replace (block_size ds / 3)%Z
    with (Z.of_nat (length (float32_tensor <$> (frame_data <$> frames))))
    by (rewrite !length_fmap, Hld; unfold bs; lia).
  rewrite (reshape_rows_uniform k).
  - unfold scale_states, float32_tensor.
    rewrite <- !list_fmap_compose.
    split; [|auto]. f_equal. f_equal.
    apply list_fmap_ext. intros j f _. simpl.
    rewrite <- list_fmap_compose. reflexivity.
  - intros E. apply (f_equal length) in E. rewrite !length_fmap, Hld in E.
    simpl in E. unfold bs in E. lia.
  - apply Forall_fmap, Forall_fmap.
    eapply Forall_impl; [exact Hf|]. intros f [_ Hk]. simpl.
    unfold float32_tensor. rewrite length_fmap. exact Hk.
Qed.

(** X16.  When the first entry of [done_idxs] above [idx >= 0] is smaller
    than [bs = block_size // 3] (an episode shorter than the window at the
    start of the data), and the frames, the actions and the returns-to-go
    each have at least [bs] entries, the window starts before position 0
    and the slices wrap around to an empty range: [__getitem__] returns no
    action and no return-to-go, and [bs] empty rows of states. *)
Theorem getitem_wraps_before_position_zero ds idx i :
  (0 <= idx)%Z →
  first_done_after idx (done_idxs ds) = Some i →
  (i < block_size ds / 3)%Z →
  (block_size ds / 3 <= Z.of_nat (length (data ds)))%Z →
  (block_size ds / 3 <= Z.of_nat (length (actions ds)))%Z →
  (block_size ds / 3 <= Z.of_nat (length (rtgs ds)))%Z →
  let bs := (block_size ds / 3)%Z in
  __getitem__ ds idx =
    Returns (mk_item (replicate (Z.to_nat bs) []) [] []
               (unsqueeze1 (py_slice (timesteps ds) (i - bs) (i - bs + 1)))).
Proof.
  intros Hidx Hf Hi Hld Hla Hlr bs.
  pose proof (first_done_after_spec _ _ _ Hf) as [Hlt _].
  unfold __getitem__, item_bounds. rewrite Hf. fold bs.
  rewrite Z.min_l by lia.
  rewrite !py_slice_wrapped by (fold bs in Hld, Hla, Hlr; lia).
  cbn [np_array]. change (float32_tensor []) with (@nil spec_float).
  unfold reshape_rows. cbn [length Z.of_nat].
  destruct (Z.ltb_spec 0 bs); [|lia].
  rewrite Zmod_0_l, Zdiv_0_l. cbn [andb Z.eqb Z.to_nat].
  rewrite rows_of_nothing. unfold scale_states. rewrite fmap_replicate.
  reflexivity.
Qed.

(** X17.  [__init__] fails exactly on an empty action array; otherwise
    [vocab_size] is one more than an action that occurs, and every action
    is below it. *)
Theorem vocab_size_bounds_actions frames bsz (acts dones rs ts : list Z) :
  match __init__ frames bsz acts dones rs ts with
  | Throws e => acts = [] ∧ e = MaxOfEmpty
  | Returns ds =>
      actions ds = acts ∧ (vocab_size ds - 1)%Z ∈ acts ∧
      ∀ a, a ∈ acts → (a < vocab_size ds)%Z
  end.
Proof.
  destruct acts as [|a rest]; simpl; [auto|].
  split; [reflexivity|].
  replace (foldr Z.max a rest + 1 - 1)%Z with (foldr Z.max a rest) by lia.
  assert (Hmax : foldr Z.max a rest ∈ a :: rest ∧
                 ∀ b, b ∈ a :: rest → (b <= foldr Z.max a rest)%Z).
  { induction rest as [|c rest IH]; simpl.
    - split; [left|]. intros b Hb. apply list_elem_of_singleton in Hb. lia.
    - destruct IH as [Hin Hle]. split.
      + destruct (Z.max_spec c (foldr Z.max a rest)) as [[_ ->]|[_ ->]].
        * apply elem_of_cons in Hin as [->|Hin]; [left|right; right; exact Hin].
        * right; left.
      + intros b Hb.
        apply elem_of_cons in Hb as [->|Hb].
        * specialize (Hle a ltac:(left)). lia.
        * apply elem_of_cons in Hb as [->|Hb]; [lia|].
          specialize (Hle b ltac:(right; exact Hb)). lia. }
  destruct Hmax as [Hin Hle]. split; [exact Hin|].
  intros b Hb. specialize (Hle b Hb). lia.
Qed.

End DatasetFacts.

Section DatasetWitnesses.
Import StateActionReturnDataset.


Lemma item_window_stops_at_episode_end_witness :
  ((item_bounds demo_dataset 3).2 <= 4)%Z.
Proof.
  refine (item_window_stops_at_episode_end demo_dataset 3%Z 4%Z _ _ _).
  - repeat constructor; lia.
  - left.
  - lia.
Defined.

Lemma getitem_reads_the_window_witness :
  let ds := demo_dataset in
  let bs := Z.to_nat (block_size ds / 3) in
  let start := Z.to_nat (item_bounds ds 3).1 in
  __getitem__ ds 3 =
    Returns (mk_item
      ((λ f, (λ v, float32_div (float32_of_int v) (float32_of_int 255))
               <$> frame_data f)
         <$> take bs (drop start (data ds)))
      (unsqueeze1 (take bs (drop start (actions ds))))
      (unsqueeze1 (float32_of_int <$> take bs (drop start (rtgs ds))))
      (unsqueeze1 (take 1 (drop start (timesteps ds))))) ∧
  length (take bs (drop start (data ds))) = bs ∧
  length (take bs (drop start (actions ds))) = bs ∧
  length (take bs (drop start (rtgs ds))) = bs ∧
  length (take 1 (drop start (timesteps ds))) = 1.
Proof.
  refine (getitem_reads_the_window demo_dataset 3%Z [2; 2] 4 _ _ _ _ _ _ _).
  - vm_compute. discriminate.
  - vm_compute. split; [discriminate|reflexivity].
  - vm_compute. discriminate.
  - vm_compute. lia.
  - vm_compute. lia.
  - vm_compute. lia.
  - repeat constructor.
Defined.

(** Index 0 before an episode end at position 1: the window would start at
    position -1. *)
Lemma getitem_wraps_before_position_zero_witness :
  __getitem__ demo_dataset_short_episode 0 =
    Returns (mk_item (replicate (Z.to_nat 2) []) [] []
               (unsqueeze1 (py_slice (timesteps demo_dataset_short_episode)
                              (1 - 2) (1 - 2 + 1)))).
Proof.
  refine (getitem_wraps_before_position_zero demo_dataset_short_episode
            0%Z 1%Z _ _ _ _ _ _).
  - lia.
  - reflexivity.
  - vm_compute. reflexivity.
  - vm_compute. discriminate.
  - vm_compute. discriminate.
  - vm_compute. discriminate.
Defined.

Lemma vocab_size_bounds_actions_witness : (3 < 4)%Z.
Proof.
  refine (proj2 (proj2 (vocab_size_bounds_actions [] 6%Z [0; 3; 1]%Z [] [] []))
            3%Z _).
  right. left.
Defined.

End DatasetWitnesses.

(** ** The metrics of an arbitrary sample *)

Section MetricsFacts.
Import Metrics.
Implicit Types (xs l : list Q) (x lo hi : Q).

Lemma lowercut_quarter (n : nat) :
  Z.to_nat (Qfloor ((1 # 4) * inject_Z (Z.of_nat n))) = n / 4.
Proof.
  replace (Qfloor ((1 # 4) * inject_Z (Z.of_nat n))) with (Z.of_nat n / 4)%Z.
  - rewrite <- (Nat2Z.id (n / 4)). f_equal. rewrite Nat2Z.inj_div. reflexivity.
  - unfold Qfloor, Qmult, inject_Z. simpl. destruct (Z.of_nat n); reflexivity.
Qed.

(** What [trim_mean] with a quarter cut from each tail computes. *)
Lemma trim_mean_quarter xs :
  trim_mean xs (1 # 4) =
  Ok (np_mean (take (length xs - length xs / 4 - length xs / 4)
                    (drop (length xs / 4) (np_sort xs)))).
Proof.
  unfold trim_mean. rewrite lowercut_quarter.
  assert (length xs / 4 ≤ length xs - length xs / 4).
  { pose proof (Nat.div_mod_eq (length xs) 4). lia. }
  destruct (Nat.ltb_spec (length xs - length xs / 4) (length xs / 4)); [lia|].
  reflexivity.
Qed.

(** X20.  [print_metrics] never fails in [trim_mean]: for every sample the
    cut of a quarter from each tail leaves a valid slice.  For the empty
    sample all four numbers are nan. *)
Theorem print_metrics_never_raises xs :
  (∃ q, iqm (print_metrics xs) = Ok q) ∧
  (xs = [] → print_metrics xs = mk_metrics None None None (Ok None)).
Proof.
  split.
  - unfold print_metrics. simpl iqm. rewrite trim_mean_quarter. eauto.
  - intros ->. reflexivity.
Qed.

End MetricsFacts.

Section MetricsWitnesses.
Import Metrics.

Lemma print_metrics_never_raises_witness :
  print_metrics [] = mk_metrics None None None (Ok None).
Proof.
  exact (proj2 (print_metrics_never_raises []) eq_refl).
Defined.

End MetricsWitnesses.
